(** * gl-slideshow: a shallow embedding of [slideshow.py]

    The development follows the layout of the Python source:

    - [Catalog]: [get_images], [get_transitions] and the string helpers they
      rely on ([str.lower], [str.endswith], [sorted], [os.path.join]);
    - [Assembler]: the concatenation on line 145;
    - [Player]: the GL/GLFW world, [compile_shader], [create_program],
      [draw_transition] and the three loops of [main], the effect files
      being taken as readable;
    - [Scenario], [Fixtures]: small installations on which the model is run;
    - [Observations]: notions used to state properties of event traces;
    - [Gl]: the GL calls of [load_texture], [draw_transition] and lines
      149-155, on a state of programs, texture units and textures;
    - [Startup]: the whole of [main], with the files and pictures that may
      fail to load.

    The properties follow, module by module.  [StartupFacts.loop_readable]
    relates the loop of [Startup] to the loop of [Player].

    Python [str] values are modelled as [string] (8-bit code points), Python
    [float] values as exact rationals [Q], exceptions as the type [exn]. *)

From Stdlib Require Import Bool Arith NArith Lia List String Ascii.
From Stdlib Require Import Permutation Sorted RelationClasses.
From Stdlib Require Import ZArith QArith Qminmax.
Import ListNotations.

Local Open Scope string_scope.

(** Python exceptions raised by the modelled code. *)
Inductive exn : Type :=
| ValueError (msg : string)
| RuntimeError (msg : string)
| IndexError
| ZeroDivisionError.

(** ** Asset catalog (lines 52-64) *)
Module Catalog.

(** [str.lower] on one code point below 256: A-Z and the Latin-1 capitals
    gain 32, everything else is unchanged. *)
Definition lower_char (c : ascii) : ascii :=
  let n := nat_of_ascii c in
  if ((65 <=? n) && (n <=? 90))%nat then ascii_of_nat (n + 32)
  else if ((192 <=? n) && (n <=? 222) && negb (n =? 215))%nat
       then ascii_of_nat (n + 32)
  else c.

Fixpoint lower (s : string) : string :=
  match s with
  | EmptyString => EmptyString
  | String c s' => String (lower_char c) (lower s')
  end.

(** [s.endswith(suffix)]: [s] is [suffix] or its tail ends with [suffix]. *)
Fixpoint endswith (s suffix : string) : bool :=
  if String.eqb s suffix then true
  else match s with
       | EmptyString => false
       | String _ s' => endswith s' suffix
       end.

(** [s.endswith(tuple_of_suffixes)] *)
Definition endswith_any (s : string) (suffixes : list string) : bool :=
  existsb (endswith s) suffixes.

Fixpoint startswith (s pfx : string) : bool :=
  match pfx with
  | EmptyString => true
  | String c pfx' =>
      match s with
      | EmptyString => false
      | String d s' => Ascii.eqb d c && startswith s' pfx'
      end
  end.

(** [posixpath.join(a, b)] *)
Definition os_path_join (a b : string) : string :=
  if startswith b "/" then b
  else if String.eqb a "" || endswith a "/" then a ++ b
  else a ++ "/" ++ b.

(** [sorted] on a list of [str]: code-point lexicographic order
    ([String.leb]); written as an insertion sort. *)
Fixpoint insert (x : string) (l : list string) : list string :=
  match l with
  | [] => [x]
  | y :: l' => if String.leb x y then x :: l else y :: insert x l'
  end.

Fixpoint sorted (l : list string) : list string :=
  match l with
  | [] => []
  | x :: l' => insert x (sorted l')
  end.

Definition img_exts : list string :=
  [".jpg"; ".jpeg"; ".png"; ".bmp"; ".tiff"; ".gif"].

Definition is_image (f : string) : bool := endswith_any (lower f) img_exts.

Definition is_transition (f : string) : bool := endswith (lower f) ".glsl".

Section WithFolder.

(** [os.listdir]: the names found in a folder, in enumeration order. *)
Variable listdir : string -> list string.

Definition get_images (folder : string) : exn + list string :=
  let files := filter is_image (listdir folder) in
  if (List.length files <? 2)%nat
  then inl (ValueError "not enough images in the folder")
  else inr (map (os_path_join folder) (sorted files)).

Definition get_transitions (folder : string) : exn + list string :=
  let files := filter is_transition (listdir folder) in
  if (List.length files =? 0)%nat
  then inl (ValueError
              ("no fragment .glsl transitions found in folder: " ++ folder))
  else inr (map (os_path_join folder) files).

End WithFolder.

(** What [os.listdir] can return: distinct entry names, none empty, none
    containing the path separator. *)
Fixpoint has_sep (s : string) : bool :=
  match s with
  | EmptyString => false
  | String c s' => Ascii.eqb c "/"%char || has_sep s'
  end.

Definition entry_name (f : string) : Prop := f <> "" /\ has_sep f = false.

Definition dir_listing (l : list string) : Prop :=
  NoDup l /\ Forall entry_name l.

(** The words of the specification: the extension of a name is what follows
    its last dot. *)
Fixpoint extension (s : string) : option string :=
  match s with
  | EmptyString => None
  | String c s' =>
      match extension s' with
      | Some e => Some e
      | None => if Ascii.eqb c "."%char then Some s' else None
      end
  end.

Definition recognised_image_extensions : list string :=
  ["jpg"; "jpeg"; "png"; "bmp"; "tiff"; "gif"].

Definition has_image_extension (f : string) : bool :=
  match extension (lower f) with
  | Some e => existsb (String.eqb e) recognised_image_extensions
  | None => false
  end.

Definition has_shader_extension (f : string) : bool :=
  match extension (lower f) with
  | Some e => String.eqb e "glsl"
  | None => false
  end.

(** Lexicographic order on names. *)
Definition le_name (a b : string) : Prop := String.leb a b = true.

(** Two names that differ in the case of ASCII letters only: of the same
    length and, position by position, the same character or a capital
    letter A-Z on one side and its small letter on the other. *)
Definition is_capital (c : ascii) : bool :=
  ((65 <=? nat_of_ascii c) && (nat_of_ascii c <=? 90))%nat.

Definition small_of (c d : ascii) : bool :=
  is_capital c && (nat_of_ascii d =? nat_of_ascii c + 32)%nat.

Definition same_letter (c d : ascii) : bool :=
  Ascii.eqb c d || small_of c d || small_of d c.

Fixpoint same_up_to_case (f g : string) : bool :=
  match f, g with
  | EmptyString, EmptyString => true
  | String c f', String d g' => same_letter c d && same_up_to_case f' g'
  | _, _ => false
  end.

End Catalog.

(** ** Shader assembler (line 145) *)
Module Assembler.

(** [header_src + fragment_src + footer_src] *)
Definition assemble (header body footer : string) : string :=
  (header ++ body) ++ footer.

End Assembler.

(** ** Transition player and sequencer (lines 29-49, 67-77, 135-179) *)
Module Player.

Local Open Scope Q_scope.

Inductive ShaderType : Type := GL_VERTEX_SHADER | GL_FRAGMENT_SHADER.

(** The calls that leave the process, in the order they are made.  A
    compile or link call is logged with the status the driver reports for
    it; [GlDraw] stands for lines 68-76 of [draw_transition]. *)
Inductive Event : Type :=
| Print (line : string)
| PrintFps (fps : Q)
| GlCompileShader (shader : nat) (ty : ShaderType) (source : string) (compiled : bool)
| GlLinkProgram (program vs fs : nat) (linked : bool)
| GlDeleteShader (shader : nat)
| GlUseProgram (program : nat)
| GlDraw (program tex1 tex2 : nat) (progress : Q)
| GlDeleteProgram (program : nat)
| GlfwTerminate.

(** What the surroundings answer: the clock, the window, the effect files
    and the GPU driver. *)
Record Env : Type := {
  (** value returned by the i-th call of [time.time()] *)
  clock : nat -> Q;
  (** [glfw.window_should_close] once [glfw.poll_events] ran i times *)
  close_flag : nat -> bool;
  (** [load_shader_source] of a file that can be read; a read that fails
      is part of [Startup] *)
  read_text : string -> string;
  (** [GL_COMPILE_STATUS] and [glGetShaderInfoLog] of a stage *)
  compile_status : ShaderType -> string -> bool;
  shader_info_log : ShaderType -> string -> string;
  (** [GL_LINK_STATUS] and [glGetProgramInfoLog] of a vertex/fragment pair *)
  link_status : string -> string -> bool;
  program_info_log : string -> string -> string
}.

Record World : Type := {
  ticks : nat;          (* calls of time.time() so far *)
  polls : nat;          (* calls of glfw.poll_events() so far *)
  next_name : nat;      (* next unused GL object name *)
  out : list Event
}.

Definition emit (e : Event) (W : World) : World :=
  {| ticks := ticks W; polls := polls W; next_name := next_name W;
     out := out W ++ [e] |}.

Definition gen_name (W : World) : nat * World :=
  (next_name W,
   {| ticks := ticks W; polls := polls W; next_name := S (next_name W);
      out := out W |}).

Inductive Res (A : Type) : Type :=
| Ok (a : A) (W : World)
| Raise (e : exn) (W : World)
| OutOfFuel.
Arguments Ok {A} a W.
Arguments Raise {A} e W.
Arguments OutOfFuel {A}.

Definition bind {A B : Type} (m : Res A) (k : A -> World -> Res B) : Res B :=
  match m with
  | Ok a W => k a W
  | Raise e W => Raise e W
  | OutOfFuel => OutOfFuel
  end.

Definition lift {A : Type} (r : exn + A) (W : World) : Res A :=
  match r with
  | inl e => Raise e W
  | inr a => Ok a W
  end.

(** [l[i]] for a non-negative [i] *)
Definition subscript {A : Type} (l : list A) (i : nat) : exn + A :=
  match nth_error l i with
  | Some a => inr a
  | None => inl IndexError
  end.

(** [a % b] on non-negative integers *)
Definition py_mod (a b : nat) : exn + nat :=
  match b with
  | O => inl ZeroDivisionError
  | S _ => inr (a mod b)%nat
  end.

Definition Qltb (x y : Q) : bool :=
  match Qcompare x y with
  | Lt => true
  | _ => false
  end.

Definition transition_duration : Q := 3 # 2.
Definition pause_duration : Q := 1.

Record Locals : Type := {
  image_index : nat;
  trans_index : nat
}.

(** The variables of one iteration of the outer loop. *)
Record Cycle : Type := {
  tex1 : nat;
  tex2 : nat;
  fragment_path : string;
  program : nat
}.

Section WithEnv.

Variable env : Env.

Definition time_time (W : World) : Q * World :=
  (clock env (ticks W),
   {| ticks := S (ticks W); polls := polls W; next_name := next_name W;
      out := out W |}).

Definition window_should_close (W : World) : bool :=
  close_flag env (polls W).

Definition compile_shader (source : string) (shader_type : ShaderType)
           (W : World) : Res nat :=
  let (shader, W1) := gen_name W in
  let compiled := compile_status env shader_type source in
  let W2 := emit (GlCompileShader shader shader_type source compiled) W1 in
  if compiled then Ok shader W2
  else Raise (RuntimeError (shader_info_log env shader_type source)) W2.

Definition create_program (vertex_src fragment_src : string) (W : World)
  : Res nat :=
  bind (compile_shader vertex_src GL_VERTEX_SHADER W) (fun vs W1 =>
  bind (compile_shader fragment_src GL_FRAGMENT_SHADER W1) (fun fs W2 =>
  let (program, W3) := gen_name W2 in
  let linked := link_status env vertex_src fragment_src in
  let W4 := emit (GlLinkProgram program vs fs linked) W3 in
  if linked
  then Ok program (emit (GlDeleteShader fs) (emit (GlDeleteShader vs) W4))
  else Raise (RuntimeError (program_info_log env vertex_src fragment_src)) W4)).

Definition draw_transition (program tex1 tex2 : nat) (progress : Q)
           (W : World) : World :=
  {| ticks := ticks W; polls := S (polls W); next_name := next_name W;
     out := out W ++ [GlDraw program tex1 tex2 progress] |}.

(** Preloaded textures, effect paths and the three fixed sources. *)
Variable textures : list nat.
Variable transition_paths : list string.
Variables vertex_src header_src footer_src : string.

(** Lines 139-155. *)
Definition cycle_prologue (L : Locals) (W : World) : Res (Locals * Cycle) :=
  bind (lift (subscript textures (image_index L)) W) (fun t1 W =>
  bind (lift (py_mod (image_index L + 1)%nat (List.length textures)) W) (fun i2 W =>
  bind (lift (subscript textures i2) W) (fun t2 W =>
  bind (lift (subscript transition_paths (trans_index L)) W) (fun path W =>
  bind (lift (py_mod (trans_index L + 1)%nat (List.length transition_paths)) W)
       (fun ti W =>
  let W := emit (Print path) W in
  let fragment_src :=
    Assembler.assemble header_src (read_text env path) footer_src in
  bind (create_program vertex_src fragment_src W) (fun p W =>
  Ok ({| image_index := image_index L; trans_index := ti |},
      {| tex1 := t1; tex2 := t2; fragment_path := path; program := p |})
     (emit (GlUseProgram p) W))))))).

(** Lines 159-160. *)
Fixpoint hold_loop (fuel : nat) (start_time : Q) (C : Cycle) (W : World)
  : Res unit :=
  match fuel with
  | O => OutOfFuel
  | S fuel' =>
      let (now, W1) := time_time W in
      if Qltb (now - start_time) pause_duration
         && negb (window_should_close W1)
      then hold_loop fuel' start_time C
             (draw_transition (program C) (tex1 C) (tex2 C) 0 W1)
      else Ok tt W1
  end.

(** Lines 158-160. *)
Definition hold_phase (fuel : nat) (C : Cycle) (W : World) : Res unit :=
  let (start_time, W1) := time_time W in
  hold_loop fuel start_time C W1.

(** Lines 165-171; returns [frame_count]. *)
Fixpoint transition_loop (fuel : nat) (start_time : Q) (C : Cycle)
         (frame_count : nat) (W : World) : Res nat :=
  match fuel with
  | O => OutOfFuel
  | S fuel' =>
      if window_should_close W then Ok frame_count W
      else
        let (now, W1) := time_time W in
        let elapsed := now - start_time in
        let progress := Qmin (elapsed / transition_duration) 1 in
        let W2 := draw_transition (program C) (tex1 C) (tex2 C) progress W1 in
        let frame_count := S frame_count in
        if Qle_bool 1 progress then Ok frame_count W2
        else transition_loop fuel' start_time C frame_count W2
  end.

(** Lines 163-171. *)
Definition transition_phase (fuel : nat) (C : Cycle) (W : World) : Res nat :=
  let (start_time, W1) := time_time W in
  transition_loop fuel start_time C 0%nat W1.

(** Lines 173-177. *)
Definition cycle_epilogue (L : Locals) (C : Cycle) (frame_count : nat)
           (W : World) : Res Locals :=
  let fps := inject_Z (Z.of_nat frame_count) / transition_duration in
  let W := emit (PrintFps fps) W in
  bind (lift (py_mod (image_index L + 1)%nat (List.length textures)) W) (fun ii W =>
  Ok {| image_index := ii; trans_index := trans_index L |}
     (emit (GlDeleteProgram (program C)) W)).

(** The body of the outer loop, lines 139-177. *)
Definition cycle (fuel : nat) (L : Locals) (W : World) : Res Locals :=
  bind (cycle_prologue L W) (fun LC W =>
  bind (hold_phase fuel (snd LC) W) (fun _ W =>
  bind (transition_phase fuel (snd LC) W) (fun frame_count W =>
  cycle_epilogue (fst LC) (snd LC) frame_count W))).

(** Lines 138-179: at most [n] iterations of the outer loop, each inner
    loop running at most [fuel] iterations. *)
Fixpoint main_loop (n fuel : nat) (L : Locals) (W : World) : Res unit :=
  match n with
  | O => OutOfFuel
  | S n' =>
      if window_should_close W then Ok tt (emit GlfwTerminate W)
      else bind (cycle fuel L W) (fun L' W' => main_loop n' fuel L' W')
  end.

(** The variables and the world at the head of the outer loop once [K]
    iterations have run to their end, if the run gets that far. *)
Fixpoint after_cycles (K fuel : nat) (L : Locals) (W : World)
  : option (Locals * World) :=
  match K with
  | O => Some (L, W)
  | S K' =>
      match after_cycles K' fuel L W with
      | Some (L1, W1) =>
          if window_should_close W1 then None
          else match cycle fuel L1 W1 with
               | Ok L2 W2 => Some (L2, W2)
               | _ => None
               end
      | None => None
      end
  end.

End WithEnv.

(** *** Notions used to state the properties *)

(** [clamp(x, lo, hi)] *)
Definition clamp (x lo hi : Q) : Q := Qmax lo (Qmin x hi).

(** Line 167 as a function of the two clock readings, and the progress
    values of [m] consecutive frames whose readings start at the [t]-th. *)
Definition progress_at (start_time now : Q) : Q :=
  Qmin ((now - start_time) / transition_duration) 1.

Definition sampled (env : Env) (start_time : Q) (t m : nat) : list Q :=
  map (fun i => progress_at start_time (clock env i)) (seq t m).

(** The events of a successful [create_program] whose first fresh name is
    [a]: the two stages, the link, the release of the stages. *)
Definition create_trace (a : nat) (vertex_src fragment_src : string)
  : list Event :=
  [GlCompileShader a GL_VERTEX_SHADER vertex_src true;
   GlCompileShader (S a) GL_FRAGMENT_SHADER fragment_src true;
   GlLinkProgram (S (S a)) a (S a) true;
   GlDeleteShader a;
   GlDeleteShader (S a)].

Definition hold_frames (C : Cycle) (hold : nat) : list Event :=
  repeat (GlDraw (program C) (tex1 C) (tex2 C) 0) hold.

Definition transition_frames (C : Cycle) (frames : list Q) : list Event :=
  map (GlDraw (program C) (tex1 C) (tex2 C)) frames.

(** The events one full iteration of the outer loop appends: the effect
    path, the program created from name [a] on, [hold] frames at progress 0,
    one frame per element of [frames], the rate, the release. *)
Definition cycle_trace (vertex_src fragment_src : string) (a : nat)
           (C : Cycle) (hold : nat) (frames : list Q) : list Event :=
  Print (fragment_path C)
  :: create_trace a vertex_src fragment_src
  ++ GlUseProgram (program C)
  :: hold_frames C hold
  ++ transition_frames C frames
  ++ [PrintFps (inject_Z (Z.of_nat (List.length frames)) / transition_duration);
      GlDeleteProgram (program C)].

(** Program lifecycle as the specification words it: which program is live
    and which names were destroyed.  A step is refused ([None]) when a
    program is linked while another is live or under a destroyed name, when
    a program that is not the live one is used, drawn with or destroyed. *)
Record Live : Type := {
  live : option nat;
  destroyed : list nat
}.

Definition is_live (p : nat) (s : Live) : bool :=
  match live s with
  | Some q => Nat.eqb p q
  | None => false
  end.

Definition is_destroyed (p : nat) (s : Live) : bool :=
  existsb (Nat.eqb p) (destroyed s).

Definition lifecycle_step (s : Live) (e : Event) : option Live :=
  match e with
  | GlLinkProgram p _ _ true =>
      match live s with
      | None =>
          if is_destroyed p s then None
          else Some {| live := Some p; destroyed := destroyed s |}
      | Some _ => None
      end
  | GlUseProgram p | GlDraw p _ _ _ =>
      if is_live p s && negb (is_destroyed p s) then Some s else None
  | GlDeleteProgram p =>
      if is_live p s && negb (is_destroyed p s)
      then Some {| live := None; destroyed := p :: destroyed s |}
      else None
  | _ => Some s
  end.

Fixpoint lifecycle (s : Live) (evs : list Event) : option Live :=
  match evs with
  | [] => Some s
  | e :: evs' =>
      match lifecycle_step s e with
      | Some s' => lifecycle s' evs'
      | None => None
      end
  end.

Definition no_program : Live := {| live := None; destroyed := [] |}.

Definition is_link (e : Event) : bool :=
  match e with
  | GlLinkProgram _ _ _ true => true
  | _ => false
  end.

Definition is_delete (e : Event) : bool :=
  match e with
  | GlDeleteProgram _ => true
  | _ => false
  end.

Definition is_draw (e : Event) : bool :=
  match e with
  | GlDraw _ _ _ _ => true
  | _ => false
  end.

(** Events that neither create, use nor destroy a program. *)
Definition inert (e : Event) : bool :=
  match e with
  | GlLinkProgram _ _ _ true | GlUseProgram _ | GlDraw _ _ _ _
  | GlDeleteProgram _ => false
  | _ => true
  end.

(** What an uncaught exception leaves on the terminal: the lines printed so
    far and the message the exception carries. *)
Definition printed (evs : list Event) : list string :=
  flat_map (fun e => match e with Print line => [line] | _ => [] end) evs.

Definition message (e : exn) : string :=
  match e with
  | ValueError msg | RuntimeError msg => msg
  | IndexError => "IndexError"
  | ZeroDivisionError => "ZeroDivisionError"
  end.

(** Lines 135-136 and the state of the process when the loop is entered. *)
Definition initial_locals : Locals :=
  {| image_index := 0%nat; trans_index := 0%nat |}.
Definition initial_world : World :=
  {| ticks := 0%nat; polls := 0%nat; next_name := 1%nat; out := [] |}.

(** The diagnostic held by the driver for the first unsuccessful status
    among vertex stage, fragment stage and link. *)
Definition failure_log (env : Env) (vertex_src fragment_src : string)
  : option string :=
  if negb (compile_status env GL_VERTEX_SHADER vertex_src)
  then Some (shader_info_log env GL_VERTEX_SHADER vertex_src)
  else if negb (compile_status env GL_FRAGMENT_SHADER fragment_src)
  then Some (shader_info_log env GL_FRAGMENT_SHADER fragment_src)
  else if negb (link_status env vertex_src fragment_src)
  then Some (program_info_log env vertex_src fragment_src)
  else None.

(** C8 as worded: when the hold phase is entered both indices still have
    the values they had at the head of the loop. *)
Definition indices_kept_until_cycle_end (env : Env) (textures : list nat)
           (transition_paths : list string)
           (vertex_src header_src footer_src : string) : Prop :=
  forall L W L1 C W1,
    cycle_prologue env textures transition_paths
                   vertex_src header_src footer_src L W = Ok (L1, C) W1 ->
    image_index L1 = image_index L /\ trans_index L1 = trans_index L.

(** Wall time between the reading taken when a phase is entered in world
    [W] and the last reading taken before it is left in world [W']. *)
Definition time_taken (env : Env) (W W' : World) : Q :=
  clock env (ticks W' - 1) - clock env (ticks W).

(** C9 as worded: the rate printed when the transition phase is left is
    the frame count over the time the phase took. *)
Definition fps_is_frames_over_time_taken (env : Env) (textures : list nat)
  : Prop :=
  forall fuel L1 C Wh n Wt L2 W2,
    transition_phase env fuel C Wh = Ok n Wt ->
    cycle_epilogue textures L1 C n Wt = Ok L2 W2 ->
    exists fps,
      out W2 = (out Wt ++ [PrintFps fps; GlDeleteProgram (program C)])%list
      /\ fps == inject_Z (Z.of_nat n) / time_taken env Wh Wt.

(** The texture pairs of the frames drawn, in order. *)
Definition drawn_pairs (evs : list Event) : list (nat * nat) :=
  flat_map (fun e => match e with
                     | GlDraw _ t1 t2 _ => [(t1, t2)]
                     | _ => []
                     end) evs.

(** A world is settled when its events so far respect the lifecycle, no
    program is live and every destroyed name is older than the next one. *)
Definition settled (W : World) : Prop :=
  exists s,
    lifecycle no_program (out W) = Some s
    /\ live s = None
    /\ Forall (fun d => (d < next_name W)%nat) (destroyed s).

End Player.

(** ** A small installation used to run the model *)
Module Scenario.
Import Player.

Definition names (_ : string) : list string :=
  ["b.PNG"; "notes.txt"; "a.jpg"; "c.gif"; "wipe.glsl"; "fade.GLSL"].

Definition textures : list nat := [101; 102; 103]%nat.

Definition transition_paths : list string :=
  ["transitions/fade.glsl"; "transitions/wipe.glsl"].

Definition vertex_src : string := "void main(){gl_Position=vec4(pos,0,1);}".
Definition header_src : string := "uniform float progress;".
Definition footer_src : string := "void main(){gl_FragColor=transition();}".

(** The clock advances by [1/rate] seconds between two readings, the window
    is closed once [close_at] frames were shown, and the driver rejects the
    fragment sources listed in [broken]. *)
Definition driver (rate : positive) (close_at : nat) (broken : list string)
  : Env :=
  {| clock := fun i => Z.of_nat i # rate;
     close_flag := fun i => (close_at <=? i)%nat;
     read_text := fun path => "vec4 transition(){/*" ++ path ++ "*/}";
     compile_status := fun ty src =>
       match ty with
       | GL_VERTEX_SHADER => true
       | GL_FRAGMENT_SHADER => negb (existsb (String.eqb src) broken)
       end;
     shader_info_log := fun _ src => "0:1(1): error: " ++ src;
     link_status := fun _ _ => true;
     program_info_log := fun _ _ => "" |}.

Definition env : Env := driver 2 12 [].

(** Two seconds pass between two readings of the clock. *)
Definition slow_env : Env :=
  {| clock := fun i => inject_Z (2 * Z.of_nat i);
     close_flag := fun i => (12 <=? i)%nat;
     read_text := read_text env;
     compile_status := compile_status env;
     shader_info_log := shader_info_log env;
     link_status := link_status env;
     program_info_log := program_info_log env |}.

(** The clock reads 3, then is set back to 0, then reads 5. *)
Definition backward_env : Env :=
  {| clock := fun i => match i with O => 3 | S O => 0 | _ => 5 end;
     close_flag := close_flag env;
     read_text := read_text env;
     compile_status := compile_status env;
     shader_info_log := shader_info_log env;
     link_status := link_status env;
     program_info_log := program_info_log env |}.

Definition fade_source : string :=
  Assembler.assemble header_src (read_text env "transitions/fade.glsl")
                     footer_src.

(** The driver rejects the first effect. *)
Definition broken_env : Env := driver 2 12 [fade_source].

Definition first_cycle : Cycle :=
  {| tex1 := 101; tex2 := 102; fragment_path := "transitions/fade.glsl";
     program := 3 |}.

End Scenario.

(** ** Notions used by the further properties *)
Module Observations.
Import Player.
Local Open Scope Q_scope.

Definition is_terminate (e : Event) : bool :=
  match e with
  | GlfwTerminate => true
  | _ => false
  end.

(** [glDeleteShader] or [glDeleteProgram] *)
Definition is_release (e : Event) : bool :=
  match e with
  | GlDeleteShader _ | GlDeleteProgram _ => true
  | _ => false
  end.

(** [glCreateShader] or [glCreateProgram], logged with the compile or link
    call that follows it. *)
Definition is_create (e : Event) : bool :=
  match e with
  | GlCompileShader _ _ _ _ | GlLinkProgram _ _ _ _ => true
  | _ => false
  end.

Definition count (f : Event -> bool) (evs : list Event) : nat :=
  List.length (filter f evs).

(** The GL objects of the loop, by kind and name, and the bookkeeping of
    those alive: a creation adds its object (refused under a name of that
    kind that is alive), a release removes it (refused when it is not
    alive), every other event leaves the set alone.  A trace tracked from
    the empty set to the empty set released every object it created, once
    and after creating it. *)
Inductive Obj : Type := Stage (name : nat) | Prog (name : nat).

Definition obj_eqb (a b : Obj) : bool :=
  match a, b with
  | Stage m, Stage n | Prog m, Prog n => Nat.eqb m n
  | _, _ => false
  end.

Definition is_alive (o : Obj) (alive : list Obj) : bool :=
  existsb (obj_eqb o) alive.

Definition track_create (o : Obj) (alive : list Obj) : option (list Obj) :=
  if is_alive o alive then None else Some (o :: alive).

Definition track_release (o : Obj) (alive : list Obj) : option (list Obj) :=
  if is_alive o alive
  then Some (filter (fun x => negb (obj_eqb o x)) alive)
  else None.

Definition track_step (alive : list Obj) (e : Event) : option (list Obj) :=
  match e with
  | GlCompileShader s _ _ _ => track_create (Stage s) alive
  | GlLinkProgram p _ _ _ => track_create (Prog p) alive
  | GlDeleteShader s => track_release (Stage s) alive
  | GlDeleteProgram p => track_release (Prog p) alive
  | _ => Some alive
  end.

Fixpoint track (alive : list Obj) (evs : list Event) : option (list Obj) :=
  match evs with
  | [] => Some alive
  | e :: evs' =>
      match track_step alive e with
      | Some alive' => track alive' evs'
      | None => None
      end
  end.

(** Both indices are positions of their lists. *)
Definition in_range (textures : list nat) (transition_paths : list string)
           (L : Locals) : Prop :=
  (image_index L < List.length textures)%nat
  /\ (trans_index L < List.length transition_paths)%nat.


End Observations.

(** ** Further installations *)
Module Fixtures.
Import Player.

(** The listing of [Scenario.names] enumerated backwards. *)
Definition names_reordered (_ : string) : list string :=
  ["fade.GLSL"; "wipe.glsl"; "c.gif"; "a.jpg"; "notes.txt"; "b.PNG"].

(** One second passes between two readings of the clock and the window is
    never closed. *)
Definition steady_env : Env :=
  {| clock := fun i => inject_Z (Z.of_nat i);
     close_flag := fun _ => false;
     read_text := read_text Scenario.env;
     compile_status := compile_status Scenario.env;
     shader_info_log := shader_info_log Scenario.env;
     link_status := link_status Scenario.env;
     program_info_log := program_info_log Scenario.env |}.

End Fixtures.

(** ** The GL calls of [load_texture], [draw_transition] and lines 149-155 *)
Module Gl.
Local Open Scope Q_scope.

(** A decoded picture: rows from top to bottom, each a list of RGB
    triples. *)
Definition Pixel : Type := (nat * nat * nat)%type.
Definition Picture : Type := list (list Pixel).

Inductive Param : Type :=
| GL_TEXTURE_MIN_FILTER | GL_TEXTURE_MAG_FILTER
| GL_TEXTURE_WRAP_S | GL_TEXTURE_WRAP_T.

Inductive Value : Type :=
| GL_LINEAR | GL_NEAREST_MIPMAP_LINEAR | GL_CLAMP_TO_EDGE | GL_REPEAT.

(** [glGetUniformLocation(program, name)] and
    [glGetAttribLocation(program, name)] *)
Definition Location : Type := (nat * string)%type.

Inductive Call : Type :=
| glClear
| glUseProgram (program : nat)
| glUniform1f (location : Location) (v : Q)
| glUniform1i (location : Location) (v : nat)
| glEnableVertexAttribArray (location : Location)
| glVertexAttribPointer (location : Location) (size : nat)
| glActiveTexture (unit : nat)
| glBindTexture (texture : nat)
| glTexImage2D (width height : nat) (data : list nat)
| glTexParameteri (pname : Param) (value : Value)
| glDrawArrays (first count : nat)
| swap_buffers
| poll_events.

(** A texture object: its rows from bottom to top, as GL read them from
    the data of [glTexImage2D], and its four parameters. *)
Record Texture : Type := {
  width : nat;
  height : nat;
  rows : Picture;
  min_filter : Value;
  mag_filter : Value;
  wrap_s : Value;
  wrap_t : Value
}.

(** What one draw call renders: the program, the textures its samplers
    [from] and [to] read, and its [progress]. *)
Record Frame : Type := {
  frame_program : nat;
  frame_from : nat;
  frame_to : nat;
  frame_progress : Q
}.

Record State : Type := {
  current_program : nat;
  active_unit : nat;
  (** texture bound to [GL_TEXTURE_2D] on each unit *)
  bound : nat -> nat;
  (** uniforms of each program, by name *)
  uniform_f : nat -> string -> Q;
  uniform_i : nat -> string -> nat;
  textures : nat -> Texture;
  (** the back buffer: cleared, or holding the last frame drawn *)
  back : option Frame;
  (** the buffers presented so far *)
  shown : list (option Frame);
  polled : nat
}.

Definition upd {A : Type} (f : nat -> A) (k : nat) (v : A) : nat -> A :=
  fun x => if Nat.eqb x k then v else f x.

Definition upd2 {A : Type} (f : nat -> string -> A) (k : nat) (name : string)
           (v : A) : nat -> string -> A :=
  fun x y => if Nat.eqb x k && String.eqb y name then v else f x y.

Definition set_param (t : Texture) (pname : Param) (value : Value)
  : Texture :=
  match pname with
  | GL_TEXTURE_MIN_FILTER =>
      {| width := width t; height := height t; rows := rows t;
         min_filter := value; mag_filter := mag_filter t;
         wrap_s := wrap_s t; wrap_t := wrap_t t |}
  | GL_TEXTURE_MAG_FILTER =>
      {| width := width t; height := height t; rows := rows t;
         min_filter := min_filter t; mag_filter := value;
         wrap_s := wrap_s t; wrap_t := wrap_t t |}
  | GL_TEXTURE_WRAP_S =>
      {| width := width t; height := height t; rows := rows t;
         min_filter := min_filter t; mag_filter := mag_filter t;
         wrap_s := value; wrap_t := wrap_t t |}
  | GL_TEXTURE_WRAP_T =>
      {| width := width t; height := height t; rows := rows t;
         min_filter := min_filter t; mag_filter := mag_filter t;
         wrap_s := wrap_s t; wrap_t := value |}
  end.

(** [GL_UNPACK_ALIGNMENT]: the program never calls [glPixelStorei], so
    the default is in force whenever [glTexImage2D] reads client memory. *)
Definition unpack_alignment : nat := 4.

(** Bytes from the start of one row of [w] RGB texels to the start of the
    next in client memory, as GL computes it: the length of the row rounded
    up to the alignment. *)
Definition row_stride (w : nat) : nat :=
  (3 * w + unpack_alignment - 1) / unpack_alignment * unpack_alignment.

Fixpoint texels (bytes : list nat) : list Pixel :=
  match bytes with
  | r :: g :: b :: rest => (r, g, b) :: texels rest
  | _ => []
  end.

(** The [h] rows of [w] texels GL reads from the array [data].  Bytes past
    the end of the array are whatever the memory holds; they are left out,
    so a row that runs past the end is cut there. *)
Fixpoint unpack (w h : nat) (data : list nat) : Picture :=
  match h with
  | O => []
  | S h' =>
      texels (firstn (3 * w) data) :: unpack w h' (skipn (row_stride w) data)
  end.

(** The effect of one call.  A uniform is set in the program in use, and
    only through a location of that program; texture calls act on the
    texture bound to the active unit. *)
Definition step (s : State) (c : Call) : State :=
  match c with
  | glClear =>
      {| current_program := current_program s; active_unit := active_unit s;
         bound := bound s; uniform_f := uniform_f s; uniform_i := uniform_i s;
         textures := textures s; back := None; shown := shown s;
         polled := polled s |}
  | glUseProgram p =>
      {| current_program := p; active_unit := active_unit s;
         bound := bound s; uniform_f := uniform_f s; uniform_i := uniform_i s;
         textures := textures s; back := back s; shown := shown s;
         polled := polled s |}
  | glUniform1f (p, name) v =>
      if Nat.eqb p (current_program s)
      then {| current_program := current_program s;
              active_unit := active_unit s; bound := bound s;
              uniform_f := upd2 (uniform_f s) p name v;
              uniform_i := uniform_i s; textures := textures s;
              back := back s; shown := shown s; polled := polled s |}
      else s
  | glUniform1i (p, name) v =>
      if Nat.eqb p (current_program s)
      then {| current_program := current_program s;
              active_unit := active_unit s; bound := bound s;
              uniform_f := uniform_f s;
              uniform_i := upd2 (uniform_i s) p name v;
              textures := textures s;
              back := back s; shown := shown s; polled := polled s |}
      else s
  | glEnableVertexAttribArray _ | glVertexAttribPointer _ _ => s
  | glActiveTexture u =>
      {| current_program := current_program s; active_unit := u;
         bound := bound s; uniform_f := uniform_f s; uniform_i := uniform_i s;
         textures := textures s; back := back s; shown := shown s;
         polled := polled s |}
  | glBindTexture t =>
      {| current_program := current_program s; active_unit := active_unit s;
         bound := upd (bound s) (active_unit s) t;
         uniform_f := uniform_f s; uniform_i := uniform_i s;
         textures := textures s; back := back s; shown := shown s;
         polled := polled s |}
  | glTexImage2D w h data =>
      let t := bound s (active_unit s) in
      let old := textures s t in
      {| current_program := current_program s; active_unit := active_unit s;
         bound := bound s; uniform_f := uniform_f s; uniform_i := uniform_i s;
         textures :=
           upd (textures s) t
               {| width := w; height := h; rows := unpack w h data;
                  min_filter := min_filter old; mag_filter := mag_filter old;
                  wrap_s := wrap_s old; wrap_t := wrap_t old |};
         back := back s; shown := shown s; polled := polled s |}
  | glTexParameteri pname value =>
      let t := bound s (active_unit s) in
      {| current_program := current_program s; active_unit := active_unit s;
         bound := bound s; uniform_f := uniform_f s; uniform_i := uniform_i s;
         textures := upd (textures s) t (set_param (textures s t) pname value);
         back := back s; shown := shown s; polled := polled s |}
  | glDrawArrays _ _ =>
      let p := current_program s in
      {| current_program := p; active_unit := active_unit s;
         bound := bound s; uniform_f := uniform_f s; uniform_i := uniform_i s;
         textures := textures s;
         back := Some {| frame_program := p;
                         frame_from := bound s (uniform_i s p "from");
                         frame_to := bound s (uniform_i s p "to");
                         frame_progress := uniform_f s p "progress" |};
         shown := shown s; polled := polled s |}
  | swap_buffers =>
      {| current_program := current_program s; active_unit := active_unit s;
         bound := bound s; uniform_f := uniform_f s; uniform_i := uniform_i s;
         textures := textures s; back := back s;
         shown := shown s ++ [back s]; polled := polled s |}
  | poll_events =>
      {| current_program := current_program s; active_unit := active_unit s;
         bound := bound s; uniform_f := uniform_f s; uniform_i := uniform_i s;
         textures := textures s; back := back s; shown := shown s;
         polled := S (polled s) |}
  end.

Definition run (s : State) (calls : list Call) : State :=
  fold_left step calls s.

(** [img.width] and [img.height] *)
Definition picture_width (p : Picture) : nat :=
  match p with
  | [] => 0%nat
  | r :: _ => List.length r
  end.

Definition picture_height (p : Picture) : nat := List.length p.

(** [Image.Transpose.FLIP_TOP_BOTTOM] *)
Definition flip_top_bottom (p : Picture) : Picture := rev p.

(** [np.array(img, np.uint8)]: the rows one after the other, three bytes
    per pixel, without padding. *)
Definition pixel_bytes (px : Pixel) : list nat :=
  let '(r, g, b) := px in [r; g; b].

Definition np_array (img : Picture) : list nat :=
  flat_map (flat_map pixel_bytes) img.

(** Lines 16-26, for the picture decoded from the path and converted to
    RGB, and the name [tex] returned by [glGenTextures(1)]. *)
Definition load_texture (picture : Picture) (tex : nat) : list Call :=
  let img := flip_top_bottom picture in
  let img_data := np_array img in
  [glBindTexture tex;
   glTexImage2D (picture_width img) (picture_height img) img_data;
   glTexParameteri GL_TEXTURE_MIN_FILTER GL_LINEAR;
   glTexParameteri GL_TEXTURE_MAG_FILTER GL_LINEAR;
   glTexParameteri GL_TEXTURE_WRAP_S GL_CLAMP_TO_EDGE;
   glTexParameteri GL_TEXTURE_WRAP_T GL_CLAMP_TO_EDGE].

(** Line 132. *)
Fixpoint load_textures (loads : list (Picture * nat)) : list Call :=
  match loads with
  | [] => []
  | (picture, tex) :: rest => load_texture picture tex ++ load_textures rest
  end.

(** Lines 149-155. *)
Definition use_program (program : nat) : list Call :=
  [glEnableVertexAttribArray (program, "pos");
   glVertexAttribPointer (program, "pos") 2;
   glUseProgram program;
   glUniform1i (program, "from") 0;
   glUniform1i (program, "to") 1].

(** Lines 67-77. *)
Definition draw_transition (program tex1 tex2 : nat) (progress : Q)
  : list Call :=
  [glClear;
   glUseProgram program;
   glUniform1f (program, "progress") progress;
   glActiveTexture 0;
   glBindTexture tex1;
   glActiveTexture 1;
   glBindTexture tex2;
   glDrawArrays 0 4;
   swap_buffers;
   poll_events].

(** The calls of one cycle once its program is compiled: lines 149-155,
    then one [draw_transition] per progress value. *)
Definition cycle_calls (program tex1 tex2 : nat) (progresses : list Q)
  : list Call :=
  use_program program
  ++ flat_map (draw_transition program tex1 tex2) progresses.

Definition frame (program tex1 tex2 : nat) (progress : Q) : Frame :=
  {| frame_program := program; frame_from := tex1; frame_to := tex2;
     frame_progress := progress |}.

(** The state of a fresh context: nothing in use, unit 0 active, every
    texture name unused with the default parameters. *)
Definition fresh_context : State :=
  {| current_program := 0; active_unit := 0; bound := fun _ => 0%nat;
     uniform_f := fun _ _ => 0; uniform_i := fun _ _ => 0%nat;
     textures := fun _ =>
       {| width := 0; height := 0; rows := [];
          min_filter := GL_NEAREST_MIPMAP_LINEAR; mag_filter := GL_LINEAR;
          wrap_s := GL_REPEAT; wrap_t := GL_REPEAT |};
     back := None; shown := []; polled := 0 |}.

(** Every row has [w] pixels and a row of [w] RGB pixels ends on a
    multiple of the unpack alignment. *)
Definition rows_aligned (picture : Picture) : Prop :=
  exists w,
    Forall (fun row => List.length row = w) picture
    /\ ((3 * w) mod unpack_alignment = 0)%nat.

(** Two small pictures, four pixels wide and two high, and one that is
    two pixels wide. *)
Definition red : Pixel := (255, 0, 0)%nat.
Definition green : Pixel := (0, 255, 0)%nat.
Definition blue : Pixel := (0, 0, 255)%nat.
Definition flag : Picture := [[red; red; red; red]; [blue; blue; blue; blue]].
Definition lawn : Picture :=
  [[green; green; green; green]; [green; blue; green; blue]].
Definition pennant : Picture := [[red; green]; [blue; red]].

End Gl.

(** ** The whole of [main] (lines 80-179) *)
Module Startup.
Import Player.

(** What opening and reading a file gives: its content, or the exception
    raised on the way ([FileNotFoundError], [IsADirectoryError],
    [PermissionError], [UnicodeDecodeError], [UnidentifiedImageError]...),
    by name. *)
Inductive Load (A : Type) : Type :=
| Loaded (a : A)
| Unreadable (error : string).
Arguments Loaded {A} a.
Arguments Unreadable {A} error.

(** What the machine answers: the folders, the files, the windowing
    library and the texture names handed out by the driver. *)
Record Host : Type := {
  isdir : string -> bool;
  listdir : string -> list string;
  (** [load_shader_source], lines 11-13 *)
  load_shader_source : string -> Load string;
  (** [Image.open(path).convert("RGB")], line 17 *)
  open_image : string -> Load Gl.Picture;
  (** [glfw.init()] *)
  glfw_init : bool;
  (** whether [glfw.create_window] returned a window *)
  create_window : bool;
  (** name returned by the i-th [glGenTextures(1)] *)
  gen_texture : nat -> nat
}.

(** The exceptions that leave [main]: those of the player and of the
    discovery, the plain [Exception] of lines 106 and 114, and the
    exception of a file that could not be read or decoded. *)
Inductive Failure : Type :=
| Raised (e : exn)
| PlainException (msg : string)
| LoadFailure (path error : string).

Inductive Run (A : Type) : Type :=
| Done (a : A) (W : World)
| Fails (f : Failure) (W : World)
| Unfinished.
Arguments Done {A} a W.
Arguments Fails {A} f W.
Arguments Unfinished {A}.

Definition and_then {A B : Type} (m : Run A) (k : A -> World -> Run B)
  : Run B :=
  match m with
  | Done a W => k a W
  | Fails f W => Fails f W
  | Unfinished => Unfinished
  end.

Definition of_res {A : Type} (r : Res A) : Run A :=
  match r with
  | Ok a W => Done a W
  | Raise e W => Fails (Raised e) W
  | OutOfFuel => Unfinished
  end.

Definition of_load {A : Type} (path : string) (l : Load A) (W : World)
  : Run A :=
  match l with
  | Loaded a => Done a W
  | Unreadable error => Fails (LoadFailure path error) W
  end.

Definition image_folder : string := "oms-images".
Definition shader_folder : string := "transitions".
Definition source_folder : string := "source".

Definition vertex_path : string :=
  Catalog.os_path_join source_folder "vertex.glsl".
Definition header_path : string :=
  Catalog.os_path_join source_folder "fragment-header.glsl".
Definition footer_path : string :=
  Catalog.os_path_join source_folder "fragment-footer.glsl".

Section WithHost.

Variable host : Host.
Variable env : Env.

Section Loop.

Variable textures : list nat.
Variable transition_paths : list string.
Variables vertex_src header_src footer_src : string.

(** Lines 139-155, the effect file being read from the host at line 144. *)
Definition cycle_prologue (L : Locals) (W : World) : Run (Locals * Cycle) :=
  and_then (of_res (lift (subscript textures (image_index L)) W)) (fun t1 W =>
  and_then (of_res (lift (py_mod (image_index L + 1)%nat
                                 (List.length textures)) W)) (fun i2 W =>
  and_then (of_res (lift (subscript textures i2) W)) (fun t2 W =>
  and_then (of_res (lift (subscript transition_paths (trans_index L)) W))
           (fun path W =>
  and_then (of_res (lift (py_mod (trans_index L + 1)%nat
                                 (List.length transition_paths)) W))
           (fun ti W =>
  let W := emit (Print path) W in
  and_then (of_load path (load_shader_source host path) W)
           (fun fragment_src W =>
  let fragment_src :=
    Assembler.assemble header_src fragment_src footer_src in
  and_then (of_res (create_program env vertex_src fragment_src W)) (fun p W =>
  Done ({| image_index := image_index L; trans_index := ti |},
        {| tex1 := t1; tex2 := t2; fragment_path := path; program := p |})
       (emit (GlUseProgram p) W)))))))).

(** Lines 139-177. *)
Definition cycle (fuel : nat) (L : Locals) (W : World) : Run Locals :=
  and_then (cycle_prologue L W) (fun LC W =>
  and_then (of_res (hold_phase env fuel (snd LC) W)) (fun _ W =>
  and_then (of_res (transition_phase env fuel (snd LC) W))
           (fun frame_count W =>
  of_res (cycle_epilogue textures (fst LC) (snd LC) frame_count W)))).

(** Lines 138-179. *)
Fixpoint main_loop (n fuel : nat) (L : Locals) (W : World) : Run unit :=
  match n with
  | O => Unfinished
  | S n' =>
      if window_should_close env W then Done tt (emit GlfwTerminate W)
      else and_then (cycle fuel L W) (fun L' W' => main_loop n' fuel L' W')
  end.

End Loop.

(** Line 132: the pictures are opened in the order of [image_paths], the
    i-th taking the i-th texture name; the first that cannot be opened
    ends the comprehension. *)
Fixpoint load_textures (i : nat) (image_paths : list string) (W : World)
  : Run (list nat) :=
  match image_paths with
  | [] => Done [] W
  | p :: rest =>
      and_then (of_load p (open_image host p) W) (fun _ W =>
      and_then (load_textures (S i) rest W) (fun names W =>
      Done (gen_texture host i :: names) W))
  end.

Definition main (n fuel : nat) : Run unit :=
  if negb (isdir host image_folder)
  then Fails (Raised (ValueError "invalid image folder")) initial_world
  else if negb (isdir host shader_folder)
  then Fails (Raised (ValueError "invalid shader folder")) initial_world
  else if negb (isdir host source_folder)
  then Fails (Raised (ValueError "invalid source folder")) initial_world
  else
    and_then (of_res (lift (Catalog.get_images (listdir host) image_folder)
                           initial_world)) (fun image_paths W =>
    and_then (of_res (lift (Catalog.get_transitions (listdir host)
                                                    shader_folder) W))
             (fun transition_paths W =>
    and_then (of_load vertex_path (load_shader_source host vertex_path) W)
             (fun vertex_src W =>
    and_then (of_load header_path (load_shader_source host header_path) W)
             (fun header_src W =>
    and_then (of_load footer_path (load_shader_source host footer_path) W)
             (fun footer_src W =>
    if negb (glfw_init host)
    then Fails (PlainException "glfw can not be initialized") W
    else if negb (create_window host)
    then Fails (PlainException "glfw window can not be created")
               (emit GlfwTerminate W)
    else
      and_then (load_textures 0 image_paths W) (fun textures W =>
      main_loop textures transition_paths vertex_src header_src footer_src
                n fuel initial_locals W)))))).

(** The environment of the player in which [read_text] answers what
    [load_shader_source] loads from the host.  While the effect files are
    readable the loop above and [Player.main_loop] under this environment
    run alike. *)
Definition reading : Env :=
  {| clock := clock env;
     close_flag := close_flag env;
     read_text := fun path =>
       match load_shader_source host path with
       | Loaded text => text
       | Unreadable _ => ""
       end;
     compile_status := compile_status env;
     shader_info_log := shader_info_log env;
     link_status := link_status env;
     program_info_log := program_info_log env |}.

End WithHost.


(** Everything the start-up checks ask for. *)
Definition ready (host : Host) : Prop :=
  isdir host image_folder = true
  /\ isdir host shader_folder = true
  /\ isdir host source_folder = true
  /\ (2 <= List.length (filter Catalog.is_image
                               (listdir host image_folder)))%nat
  /\ (1 <= List.length (filter Catalog.is_transition
                               (listdir host shader_folder)))%nat
  /\ glfw_init host = true
  /\ create_window host = true.

End Startup.

Module StartupFixtures.
Import Startup.

(** Every folder exists and lists the names of [Scenario.names]; every
    file can be read. *)
Definition good_host : Host :=
  {| isdir := fun _ => true;
     listdir := Scenario.names;
     load_shader_source := fun path =>
       Loaded (Player.read_text Scenario.env path);
     open_image := fun _ => Loaded Gl.flag;
     glfw_init := true;
     create_window := true;
     gen_texture := fun i => (101 + i)%nat |}.



End StartupFixtures.

(** * Properties *)

(** ** Asset catalog *)
Module CatalogFacts.
Import Catalog.

Example lower_mixed : lower "Photo.JPeG" = "photo.jpeg".
Proof. reflexivity. Qed.

Example is_image_upper : is_image "B.PNG" = true.
Proof. reflexivity. Qed.

Example is_image_text : is_image "notes.txt" = false.
Proof. reflexivity. Qed.

Example join_plain : os_path_join "oms-images" "a.png" = "oms-images/a.png".
Proof. reflexivity. Qed.

Example sorted_names :
  sorted ["c.png"; "a.png"; "b.png"] = ["a.png"; "b.png"; "c.png"].
Proof. reflexivity. Qed.

Example hidden_file_is_image : is_image ".png" = true.
Proof. reflexivity. Qed.

Example get_images_one_image :
  get_images (fun _ => ["only.png"; "readme.md"]) "oms-images"
  = inl (ValueError "not enough images in the folder").
Proof. reflexivity. Qed.

Example get_transitions_listing_order :
  get_transitions Scenario.names "transitions"
  = inr ["transitions/wipe.glsl"; "transitions/fade.GLSL"].
Proof. reflexivity. Qed.

Lemma ascii_compare_Lt_trans a b c :
  Ascii.compare a b = Lt -> Ascii.compare b c = Lt -> Ascii.compare a c = Lt.
Proof.
  unfold Ascii.compare. rewrite !N.compare_lt_iff. apply N.lt_trans.
Qed.

Lemma compare_trans_not_Gt a : forall b c,
  String.compare a b <> Gt -> String.compare b c <> Gt -> String.compare a c <> Gt.
Proof.
  induction a as [|x a IH]; intros [|y b] [|z c]; simpl; try congruence.
  destruct (Ascii.compare x y) eqn:Exy; try congruence.
  - apply Ascii.compare_eq_iff in Exy; subst y.
    destruct (Ascii.compare x z); try congruence. apply IH.
  - intros _. destruct (Ascii.compare y z) eqn:Eyz; try congruence.
    + apply Ascii.compare_eq_iff in Eyz; subst z. rewrite Exy. congruence.
    + rewrite (ascii_compare_Lt_trans _ _ _ Exy Eyz). congruence.
Qed.

Lemma leb_trans a b c :
  String.leb a b = true -> String.leb b c = true -> String.leb a c = true.
Proof.
  unfold String.leb. intros Hab Hbc.
  assert (H : String.compare a c <> Gt).
  { apply (compare_trans_not_Gt a b c).
    - destruct (String.compare a b); congruence.
    - destruct (String.compare b c); congruence. }
  destruct (String.compare a c); congruence.
Qed.

Lemma insert_perm x l : Permutation (x :: l) (insert x l).
Proof.
  induction l as [|y l IH]; simpl.
  - reflexivity.
  - destruct (String.leb x y).
    + reflexivity.
    + rewrite perm_swap. now apply perm_skip.
Qed.

Lemma sorted_perm l : Permutation l (sorted l).
Proof.
  induction l as [|x l IH]; simpl.
  - constructor.
  - rewrite <- insert_perm. now apply perm_skip.
Qed.

Lemma insert_hd x a l :
  le_name a x -> HdRel le_name a l -> HdRel le_name a (insert x l).
Proof.
  intros Hax Hal. destruct l as [|y l]; simpl.
  - now constructor.
  - inversion Hal; subst. destruct (String.leb x y); now constructor.
Qed.

Lemma insert_sorted x l : Sorted le_name l -> Sorted le_name (insert x l).
Proof.
  induction 1 as [|y l Hs IH Hhd]; simpl.
  - repeat constructor.
  - destruct (String.leb x y) eqn:E.
    + constructor; [now constructor | now constructor].
    + constructor; [exact IH |].
      apply insert_hd; [| exact Hhd].
      destruct (String.leb_total x y) as [H | H]; [congruence | exact H].
Qed.

Lemma sorted_sorted l : Sorted le_name (sorted l).
Proof.
  induction l as [|x l IH]; simpl; [constructor | now apply insert_sorted].
Qed.

Lemma append_inv_head a : forall b c, a ++ b = a ++ c -> b = c.
Proof.
  induction a as [|x a IH]; simpl; intros b c H; [exact H |].
  injection H as H. now apply IH.
Qed.

Lemma entry_not_absolute f : has_sep f = false -> startswith f "/" = false.
Proof.
  destruct f as [|c f]; simpl; [reflexivity |].
  intros H. apply orb_false_iff in H as [H _].
  now rewrite H.
Qed.

Lemma os_path_join_inj folder f g :
  has_sep f = false -> has_sep g = false ->
  os_path_join folder f = os_path_join folder g -> f = g.
Proof.
  intros Hf Hg. unfold os_path_join.
  rewrite (entry_not_absolute f Hf), (entry_not_absolute g Hg).
  destruct (String.eqb folder "" || endswith folder "/"); intros H.
  - now apply append_inv_head in H.
  - apply append_inv_head in H. now apply (append_inv_head "/") in H.
Qed.

Lemma endswith_iff s suffix :
  endswith s suffix = true <-> exists p, s = p ++ suffix.
Proof.
  induction s as [|c s IH]; cbn [endswith].
  - destruct (String.eqb_spec "" suffix) as [<- | Hne].
    + split; [exists ""; reflexivity | reflexivity].
    + split; [discriminate |]. intros [p Hp].
      destruct p; simpl in Hp; [congruence | discriminate].
  - destruct (String.eqb_spec (String c s) suffix) as [<- | Hne].
    + split; [exists ""; reflexivity | reflexivity].
    + rewrite IH. split.
      * intros [p ->]. exists (String c p). reflexivity.
      * intros [p Hp]. destruct p as [|d p]; simpl in Hp.
        -- congruence.
        -- injection Hp as _ ->. now exists p.
Qed.

Lemma endswith_dot_extension e : extension e = None ->
  forall s, endswith s (String "." e) = true <-> extension s = Some e.
Proof.
  intros He. induction s as [|c s IH]; cbn [endswith extension].
  - split; discriminate.
  - destruct (extension s) as [e'|] eqn:Es.
    + destruct (String.eqb_spec (String c s) (String "." e)) as [Heq | _].
      * injection Heq as _ ->. congruence.
      * exact IH.
    + destruct (String.eqb_spec (String c s) (String "." e)) as [Heq | Hne].
      * injection Heq as -> ->. simpl. tauto.
      * split.
        -- intros H. apply IH in H. discriminate.
        -- destruct (Ascii.eqb_spec c ".") as [-> | _]; [| discriminate].
           intros [= ->]. contradiction.
Qed.

Lemma endswith_any_dots s exts :
  Forall (fun e => extension e = None) exts ->
  endswith_any s (map (String ".") exts) =
  match extension s with
  | Some e => existsb (String.eqb e) exts
  | None => false
  end.
Proof.
  unfold endswith_any.
  induction 1 as [|e exts He _ IH]; simpl.
  - now destruct (extension s).
  - rewrite IH. pose proof (endswith_dot_extension e He s) as Hiff.
    destruct (extension s) as [e0|].
    + destruct (String.eqb_spec e0 e) as [-> | Hne].
      * now rewrite (proj2 Hiff eq_refl).
      * destruct (endswith s (String "." e)); [| reflexivity].
        destruct Hiff as [Hiff _]. specialize (Hiff eq_refl). congruence.
    + destruct (endswith s (String "." e)); [| reflexivity].
      destruct Hiff as [Hiff _]. specialize (Hiff eq_refl). discriminate.
Qed.

Lemma is_image_has_image_extension f : is_image f = has_image_extension f.
Proof.
  unfold is_image, has_image_extension.
  change img_exts with (map (String ".") recognised_image_extensions).
  apply endswith_any_dots.
  repeat constructor.
Qed.

Lemma is_transition_has_shader_extension f :
  is_transition f = has_shader_extension f.
Proof.
  unfold is_transition, has_shader_extension.
  pose proof (endswith_dot_extension "glsl" eq_refl (lower f)) as Hiff.
  change (String "." "glsl") with ".glsl" in Hiff.
  destruct (extension (lower f)) as [e|].
  - destruct (String.eqb_spec e "glsl") as [-> | Hne].
    + now apply Hiff.
    + destruct (endswith (lower f) ".glsl"); [| reflexivity].
      destruct Hiff as [Hiff _]. specialize (Hiff eq_refl). congruence.
  - destruct (endswith (lower f) ".glsl"); [| reflexivity].
    destruct Hiff as [Hiff _]. specialize (Hiff eq_refl). discriminate.
Qed.

#[local] Instance le_name_trans : Transitive le_name.
Proof. intros a b c. apply leb_trans. Qed.

Lemma join_nodup folder names :
  Forall entry_name names -> NoDup names ->
  NoDup (map (os_path_join folder) names).
Proof.
  intros Hnames Hnd. apply NoDup_map_NoDup_ForallPairs; [| exact Hnd].
  intros f g Hf Hg. rewrite Forall_forall in Hnames.
  apply os_path_join_inj; [apply (Hnames f Hf) | apply (Hnames g Hg)].
Qed.

Lemma get_images_ok listdir folder :
  (2 <= List.length (filter is_image (listdir folder)))%nat ->
  get_images listdir folder =
  inr (map (os_path_join folder) (sorted (filter is_image (listdir folder)))).
Proof.
  intros H. unfold get_images.
  destruct (Nat.ltb_spec (List.length (filter is_image (listdir folder))) 2);
    [lia | reflexivity].
Qed.

Lemma get_images_at_least_two listdir folder paths :
  get_images listdir folder = inr paths -> (2 <= List.length paths)%nat.
Proof.
  unfold get_images.
  destruct (Nat.ltb_spec (List.length (filter is_image (listdir folder))) 2)
    as [| Hge]; [discriminate |].
  intros [= <-]. rewrite length_map.
  now rewrite <- (Permutation_length (sorted_perm _)).
Qed.

Lemma get_transitions_at_least_one listdir folder paths :
  get_transitions listdir folder = inr paths -> (1 <= List.length paths)%nat.
Proof.
  unfold get_transitions.
  destruct (Nat.eqb_spec
              (List.length (filter is_transition (listdir folder))) 0)
    as [| Hne]; [discriminate |].
  intros [= <-]. rewrite length_map. lia.
Qed.

(** C5.  On a directory listing with at least two names carrying a
    recognised image extension (compared without regard to case),
    [get_images] returns the folder joined to names that are sorted
    lexicographically and free of duplicates; the paths are free of
    duplicates, as many as the matching names, and the names are exactly the
    matching entries of the listing.  The result depends on the listing
    only, so a second call on the same listing returns the same list. *)
Theorem get_images_sorted_deduplicated listdir folder :
  dir_listing (listdir folder) ->
  (2 <= List.length (filter has_image_extension (listdir folder)))%nat ->
  exists names,
    get_images listdir folder = inr (map (os_path_join folder) names)
    /\ StronglySorted le_name names
    /\ NoDup names
    /\ NoDup (map (os_path_join folder) names)
    /\ List.length (map (os_path_join folder) names)
       = List.length (filter has_image_extension (listdir folder))
    /\ (forall f, In f names <->
                  In f (listdir folder) /\ has_image_extension f = true)
    /\ (forall listdir',
          listdir' folder = listdir folder ->
          get_images listdir' folder = get_images listdir folder).
Proof.
  intros [Hnd Hentries] Hcount.
  rewrite <- (filter_ext _ _ is_image_has_image_extension) in Hcount.
  set (files := filter is_image (listdir folder)) in *.
  assert (Hperm : Permutation files (sorted files)) by apply sorted_perm.
  assert (Hnd' : NoDup (sorted files)).
  { apply (Permutation_NoDup Hperm). now apply NoDup_filter. }
  exists (sorted files).
  split; [now apply get_images_ok |].
  split; [apply Sorted_StronglySorted;
          [exact le_name_trans | apply sorted_sorted] |].
  split; [exact Hnd' |].
  split.
  { apply join_nodup; [| exact Hnd'].
    apply (Permutation_Forall Hperm). unfold files.
    rewrite Forall_forall in *. intros f Hf.
    apply filter_In in Hf as [Hf _]. now apply Hentries. }
  split.
  { rewrite length_map, <- (Permutation_length Hperm). unfold files.
    now rewrite (filter_ext _ _ is_image_has_image_extension). }
  split.
  - intros f. rewrite <- is_image_has_image_extension.
    rewrite <- (filter_In is_image). unfold files in Hperm. split.
    + apply (Permutation_in _ (Permutation_sym Hperm)).
    + apply (Permutation_in _ Hperm).
  - intros listdir' Heq. unfold get_images. now rewrite Heq.
Qed.

Lemma get_images_sorted_deduplicated_witness :
  exists names,
    get_images Scenario.names "oms-images" = inr (map (os_path_join "oms-images") names)
    /\ StronglySorted le_name names
    /\ NoDup names
    /\ NoDup (map (os_path_join "oms-images") names)
    /\ List.length (map (os_path_join "oms-images") names)
       = List.length (filter has_image_extension (Scenario.names "oms-images"))
    /\ (forall f, In f names <->
                  In f (Scenario.names "oms-images") /\ has_image_extension f = true)
    /\ (forall listdir',
          listdir' "oms-images" = Scenario.names "oms-images" ->
          get_images listdir' "oms-images" = get_images Scenario.names "oms-images").
Proof.
  apply (get_images_sorted_deduplicated Scenario.names "oms-images").
  - split.
    + repeat constructor; simpl; intuition discriminate.
    + repeat constructor; discriminate.
  - simpl. lia.
Defined.

(** C6.  [get_images] raises its error exactly when fewer than two names
    carry a recognised image extension; [get_transitions] raises its error
    exactly when no name carries the shader extension (without regard to
    case); when [get_transitions] succeeds it returns the matching names in
    the order of the listing, each joined to the folder. *)
Theorem discovery_fails_iff listdir folder :
  (get_images listdir folder = inl (ValueError "not enough images in the folder")
   <-> (List.length (filter has_image_extension (listdir folder)) < 2)%nat)
  /\ ((exists paths, get_images listdir folder = inr paths)
      <-> (2 <= List.length (filter has_image_extension (listdir folder)))%nat)
  /\ (get_transitions listdir folder =
      inl (ValueError
             ("no fragment .glsl transitions found in folder: " ++ folder))
      <-> List.length (filter has_shader_extension (listdir folder)) = 0%nat)
  /\ (forall paths,
        get_transitions listdir folder = inr paths <->
        (filter has_shader_extension (listdir folder) <> []
         /\ paths = map (os_path_join folder)
                        (filter has_shader_extension (listdir folder)))).
Proof.
  unfold get_images, get_transitions.
  rewrite <- (filter_ext _ _ is_image_has_image_extension).
  rewrite <- (filter_ext _ _ is_transition_has_shader_extension).
  destruct (Nat.ltb_spec (List.length (filter is_image (listdir folder))) 2);
    destruct (Nat.eqb_spec
                (List.length (filter is_transition (listdir folder))) 0)
      as [Hz | Hnz].
  all: repeat split; try tauto; try lia; try discriminate;
    try (intros [paths Hp]; discriminate Hp);
    try (intros _; eexists; reflexivity).
  all: try (intros [Hne _]; apply length_zero_iff_nil in Hz; contradiction).
  all: try (intros [= <-]; reflexivity).
  all: try (intros [_ ->]; reflexivity).
  all: try (intros Hnil; apply Hnz; now rewrite Hnil).
  all: congruence.
Qed.

End CatalogFacts.

(** ** Shader assembler *)
Module AssemblerFacts.
Import Assembler.

Lemma list_ascii_of_string_append a b :
  list_ascii_of_string (a ++ b) =
  (list_ascii_of_string a ++ list_ascii_of_string b)%list.
Proof. induction a as [|c a IH]; simpl; [reflexivity | now rewrite IH]. Qed.

Lemma append_inv_tail a b c : a ++ c = b ++ c -> a = b.
Proof.
  intros H. apply (f_equal list_ascii_of_string) in H.
  rewrite !list_ascii_of_string_append in H. apply app_inv_tail in H.
  apply (f_equal string_of_list_ascii) in H.
  now rewrite !string_of_list_ascii_of_string in H.
Qed.

Lemma append_assoc a b c : (a ++ b) ++ c = a ++ b ++ c.
Proof. induction a as [|x a IH]; simpl; [reflexivity | now rewrite IH]. Qed.

(** C4.  [assemble] is the concatenation header ++ body ++ footer; equal
    inputs give the same source, and with header and footer fixed two
    different bodies give two different sources. *)
Theorem assemble_concat_injective header footer :
  (forall body, assemble header body footer = header ++ body ++ footer)
  /\ (forall h b f, h = header -> f = footer ->
                   forall b', b = b' -> assemble h b f = assemble header b' footer)
  /\ (forall b1 b2, b1 <> b2 ->
                   assemble header b1 footer <> assemble header b2 footer).
Proof.
  repeat split.
  - intros body. apply append_assoc.
  - intros h b f -> -> b' ->. reflexivity.
  - intros b1 b2 Hne H. apply Hne. unfold assemble in H.
    apply append_inv_tail in H.
    now apply CatalogFacts.append_inv_head in H.
Qed.

Lemma assemble_concat_injective_witness :
  assemble "#version 330;" "fade" "}" <> assemble "#version 330;" "wipe" "}".
Proof.
  apply (proj2 (proj2 (assemble_concat_injective "#version 330;" "}"))).
  discriminate.
Defined.

End AssemblerFacts.

(** ** Transition player and sequencer *)
Module PlayerFacts.
Import Player.
Local Open Scope Q_scope.

Section Loops.

Variable env : Env.

Lemma hold_loop_ok fuel start_time C : forall W W',
  hold_loop env fuel start_time C W = Ok tt W' ->
  exists k,
    ticks W' = (ticks W + S k)%nat /\ polls W' = (polls W + k)%nat
    /\ next_name W' = next_name W
    /\ out W' = (out W ++ hold_frames C k)%list.
Proof.
  induction fuel as [|fuel IH]; intros W W'; simpl; [discriminate |].
  destruct (_ && _).
  - intros H. apply IH in H as (k & Ht & Hp & Hn & Ho). simpl in *.
    exists (S k). repeat split; try lia; try assumption.
    rewrite Ho, <- app_assoc. reflexivity.
  - intros [= <-]. exists 0%nat. simpl.
    repeat split; try lia. now rewrite app_nil_r.
Qed.

Lemma hold_loop_no_raise fuel start_time C : forall W e W',
  hold_loop env fuel start_time C W <> Raise e W'.
Proof.
  induction fuel as [|fuel IH]; intros W e W'; simpl; [discriminate |].
  destruct (_ && _); [apply IH | discriminate].
Qed.

Lemma hold_loop_terminates start_time C : forall j fuel W,
  close_flag env (polls W + j) = true -> (j < fuel)%nat ->
  exists W', hold_loop env fuel start_time C W = Ok tt W'
             /\ (polls W' <= polls W + j)%nat.
Proof.
  induction j as [|j IH]; intros [|fuel] W Hflag Hfuel; try lia; simpl.
  - unfold window_should_close; simpl. rewrite Nat.add_0_r in Hflag.
    rewrite Hflag, andb_false_r. eexists; split; [reflexivity | simpl; lia].
  - destruct (_ && _).
    + destruct (IH fuel (draw_transition (program C) (tex1 C) (tex2 C) 0
                          (snd (time_time env W)))) as (W' & HW' & Hle).
      * simpl. now rewrite <- Nat.add_succ_comm in Hflag.
      * lia.
      * exists W'. split; [exact HW' | simpl in Hle; lia].
    + eexists; split; [reflexivity | simpl; lia].
Qed.

Lemma transition_loop_ok fuel start_time C : forall fc W n W',
  transition_loop env fuel start_time C fc W = Ok n W' ->
  exists m,
    n = (fc + m)%nat
    /\ ticks W' = (ticks W + m)%nat /\ polls W' = (polls W + m)%nat
    /\ next_name W' = next_name W
    /\ out W' =
       (out W ++ transition_frames C (sampled env start_time (ticks W) m))%list
    /\ (forall i, (S i < m)%nat ->
          Qle_bool 1 (progress_at start_time (clock env (ticks W + i))) = false)
    /\ (window_should_close env W' = true
        \/ exists i, m = S i /\
             Qle_bool 1 (progress_at start_time (clock env (ticks W + i))) = true).
Proof.
  induction fuel as [|fuel IH]; intros fc W n W'; simpl; [discriminate |].
  destruct (window_should_close env W) eqn:Hclose.
  - intros [= <- <-]. exists 0%nat. simpl.
    repeat split; try lia; try (now rewrite app_nil_r). now left.
  - fold (progress_at start_time (clock env (ticks W))).
    destruct (Qle_bool 1 (progress_at start_time (clock env (ticks W)))) eqn:Hdone.
    + intros [= <- <-]. exists 1%nat. simpl.
      repeat split; try lia.
      right. exists 0%nat. now rewrite Nat.add_0_r.
    + intros H. apply IH in H as (m & Hn & Ht & Hp & Hnn & Ho & Hlt & Hend).
      simpl in *. exists (S m). repeat split; try lia; try assumption.
      * rewrite Ho, <- app_assoc. reflexivity.
      * intros [|i] Hi; [now rewrite Nat.add_0_r |].
        rewrite <- Nat.add_succ_comm. apply Hlt. lia.
      * destruct Hend as [Hend | (i & -> & Hi)]; [now left | right].
        exists (S i). split; [reflexivity |].
        now rewrite <- Nat.add_succ_comm.
Qed.

Lemma transition_loop_no_raise fuel start_time C : forall fc W e W',
  transition_loop env fuel start_time C fc W <> Raise e W'.
Proof.
  induction fuel as [|fuel IH]; intros fc W e W'; simpl; [discriminate |].
  destruct (window_should_close env W); [discriminate |].
  destruct (Qle_bool 1 _); [discriminate | apply IH].
Qed.

Lemma transition_loop_terminates start_time C : forall j fuel fc W,
  close_flag env (polls W + j) = true
  \/ Qle_bool 1 (progress_at start_time (clock env (ticks W + j))) = true ->
  (j < fuel)%nat ->
  exists n W', transition_loop env fuel start_time C fc W = Ok n W'
               /\ (polls W' <= polls W + S j)%nat.
Proof.
  induction j as [|j IH]; intros [|fuel] fc W Hend Hfuel; try lia; simpl.
  - rewrite !Nat.add_0_r in Hend. unfold window_should_close.
    destruct (close_flag env (polls W)) eqn:Hclose.
    + do 2 eexists; split; [reflexivity | lia].
    + destruct Hend as [Hend | Hend]; [discriminate |].
      fold (progress_at start_time (clock env (ticks W))). rewrite Hend.
      do 2 eexists; split; [reflexivity | simpl; lia].
  - destruct (window_should_close env W).
    + do 2 eexists; split; [reflexivity | lia].
    + fold (progress_at start_time (clock env (ticks W))).
      destruct (Qle_bool 1 (progress_at start_time (clock env (ticks W)))).
      * do 2 eexists; split; [reflexivity | simpl; lia].
      * edestruct (IH fuel (S fc)) as (n & W' & HW' & Hle);
          [| | exists n, W'; split; [exact HW' |]].
        -- simpl. now rewrite <- !Nat.add_succ_comm in Hend.
        -- lia.
        -- simpl in Hle. lia.
Qed.

Lemma transition_loop_cancelled start_time C : forall j fuel fc W,
  close_flag env (polls W + j) = true -> (j < fuel)%nat ->
  exists n W', transition_loop env fuel start_time C fc W = Ok n W'
               /\ (polls W' <= polls W + j)%nat.
Proof.
  induction j as [|j IH]; intros [|fuel] fc W Hflag Hfuel; try lia;
    cbn [transition_loop].
  - rewrite Nat.add_0_r in Hflag. unfold window_should_close.
    rewrite Hflag. do 2 eexists; split; [reflexivity | lia].
  - destruct (window_should_close env W).
    + do 2 eexists; split; [reflexivity | lia].
    + cbn [time_time]. 
      destruct (Qle_bool 1 _).
      * do 2 eexists; split; [reflexivity | simpl; lia].
      * edestruct (IH fuel (S fc)) as (n & W' & HW' & Hle);
          [| | exists n, W'; split; [exact HW' |]].
        -- simpl. now rewrite <- Nat.add_succ_comm in Hflag.
        -- lia.
        -- simpl in Hle. lia.
Qed.

End Loops.

(** *** Arithmetic of the progress value *)

Lemma transition_duration_pos : 0 < transition_duration.
Proof. reflexivity. Qed.

Lemma progress_at_le_1 s t : progress_at s t <= 1.
Proof. apply Q.le_min_r. Qed.

Lemma div_duration_mono x y :
  x <= y -> x / transition_duration <= y / transition_duration.
Proof.
  intros H. unfold Qdiv. apply Qmult_le_compat_r; [exact H |].
  apply Qlt_le_weak, Qinv_lt_0_compat, transition_duration_pos.
Qed.

Lemma progress_at_mono s t1 t2 :
  t1 <= t2 -> progress_at s t1 <= progress_at s t2.
Proof.
  intros H. unfold progress_at. apply Q.min_le_compat_r, div_duration_mono.
  now apply Qplus_le_compat; [| apply Qle_refl].
Qed.

Lemma progress_at_nonneg s t : s <= t -> 0 <= progress_at s t.
Proof.
  intros H. unfold progress_at. apply Q.min_glb; [| discriminate].
  setoid_replace 0 with (0 / transition_duration) by reflexivity.
  apply div_duration_mono. unfold Qminus. now rewrite <- Qle_minus_iff.
Qed.

Lemma progress_at_clamp s t :
  s <= t -> progress_at s t == clamp ((t - s) / transition_duration) 0 1.
Proof.
  intros H. unfold clamp. fold (progress_at s t).
  symmetry. apply Q.max_r. now apply progress_at_nonneg.
Qed.

Lemma progress_done_iff s t :
  Qle_bool 1 (progress_at s t) = true <-> progress_at s t == 1.
Proof.
  rewrite Qle_bool_iff. split.
  - intros H. apply Qle_antisym; [apply progress_at_le_1 | exact H].
  - intros ->. apply Qle_refl.
Qed.

Lemma progress_not_done s t :
  Qle_bool 1 (progress_at s t) = false <-> progress_at s t < 1.
Proof.
  split.
  - intros H. apply Qnot_le_lt. intros Hle.
    apply Qle_bool_iff in Hle. congruence.
  - intros H. destruct (Qle_bool 1 (progress_at s t)) eqn:E; [| reflexivity].
    apply Qle_bool_iff in E. exfalso. apply (Qlt_not_le _ _ H E).
Qed.

Lemma sampled_length env s t n : List.length (sampled env s t n) = n.
Proof. unfold sampled. now rewrite length_map, length_seq. Qed.

Lemma sampled_nth env s t n i :
  (i < n)%nat ->
  nth i (sampled env s t n) 0 = progress_at s (clock env (t + i)).
Proof.
  intros Hi. unfold sampled.
  rewrite (nth_indep _ 0 (progress_at s (clock env 0)))
    by now rewrite length_map, length_seq.
  rewrite (map_nth (fun i => progress_at s (clock env i))).
  now rewrite seq_nth.
Qed.

(** *** Program creation and the phases of one cycle *)

Section Cycles.

Variable env : Env.
Variable textures : list nat.
Variable transition_paths : list string.
Variables vertex_src header_src footer_src : string.

Local Abbreviation prologue :=
  (cycle_prologue env textures transition_paths
                  vertex_src header_src footer_src).
Local Abbreviation epilogue := (cycle_epilogue textures).
Local Abbreviation body :=
  (cycle env textures transition_paths vertex_src header_src footer_src).
Local Abbreviation loop :=
  (main_loop env textures transition_paths
             vertex_src header_src footer_src).
Local Abbreviation cycles :=
  (after_cycles env textures transition_paths
                vertex_src header_src footer_src).
Local Abbreviation source_of path :=
  (Assembler.assemble header_src (read_text env path) footer_src).

Lemma create_program_ok v f W p W' :
  create_program env v f W = Ok p W' ->
  p = S (S (next_name W))
  /\ ticks W' = ticks W /\ polls W' = polls W
  /\ next_name W' = S (S (S (next_name W)))
  /\ out W' = (out W ++ create_trace (next_name W) v f)%list.
Proof.
  unfold create_program, compile_shader, bind; simpl.
  destruct (compile_status env GL_VERTEX_SHADER v); [| discriminate].
  simpl. destruct (compile_status env GL_FRAGMENT_SHADER f); [| discriminate].
  simpl. destruct (link_status env v f); [| discriminate].
  intros [= <- <-]. simpl. repeat split.
  now rewrite <- !app_assoc.
Qed.

Lemma create_program_succeeds v f W :
  compile_status env GL_VERTEX_SHADER v = true ->
  compile_status env GL_FRAGMENT_SHADER f = true ->
  link_status env v f = true ->
  exists W', create_program env v f W = Ok (S (S (next_name W))) W'.
Proof.
  intros Hv Hf Hl. unfold create_program, compile_shader, bind; simpl.
  rewrite Hv; simpl. rewrite Hf; simpl. rewrite Hl. eexists; reflexivity.
Qed.

Lemma create_program_raises v f W :
  (compile_status env GL_VERTEX_SHADER v = false ->
   exists W', create_program env v f W =
              Raise (RuntimeError (shader_info_log env GL_VERTEX_SHADER v)) W'
              /\ exists evs, out W' = (out W ++ evs)%list)
  /\ (compile_status env GL_VERTEX_SHADER v = true ->
      compile_status env GL_FRAGMENT_SHADER f = false ->
      exists W', create_program env v f W =
                 Raise (RuntimeError
                          (shader_info_log env GL_FRAGMENT_SHADER f)) W'
                 /\ exists evs, out W' = (out W ++ evs)%list)
  /\ (compile_status env GL_VERTEX_SHADER v = true ->
      compile_status env GL_FRAGMENT_SHADER f = true ->
      link_status env v f = false ->
      exists W', create_program env v f W =
                 Raise (RuntimeError (program_info_log env v f)) W'
                 /\ exists evs, out W' = (out W ++ evs)%list).
Proof.
  unfold create_program, compile_shader, bind; simpl.
  split; [| split].
  - intros ->. eexists; split; [reflexivity |]. simpl. eexists; reflexivity.
  - intros -> . simpl. intros ->.
    eexists; split; [reflexivity |]. simpl.
    rewrite <- app_assoc. eexists; reflexivity.
  - intros ->. simpl. intros ->. simpl. intros ->.
    eexists; split; [reflexivity |]. simpl.
    rewrite <- !app_assoc. eexists; reflexivity.
Qed.

Lemma subscript_inr {A} (l : list A) i a :
  subscript l i = inr a <-> nth_error l i = Some a.
Proof.
  unfold subscript. destruct (nth_error l i); split; congruence.
Qed.

Lemma py_mod_inr a b r :
  py_mod a b = inr r <-> b <> 0%nat /\ r = (a mod b)%nat.
Proof.
  unfold py_mod. destruct b; split; try congruence.
  - intros [H _]. congruence.
  - intros [= <-]. split; [discriminate | reflexivity].
  - intros [_ ->]. reflexivity.
Qed.

Lemma cycle_prologue_ok L W L1 C W1 :
  prologue L W = Ok (L1, C) W1 ->
  nth_error textures (image_index L) = Some (tex1 C)
  /\ nth_error textures ((image_index L + 1) mod List.length textures)
     = Some (tex2 C)
  /\ nth_error transition_paths (trans_index L) = Some (fragment_path C)
  /\ List.length textures <> 0%nat
  /\ List.length transition_paths <> 0%nat
  /\ image_index L1 = image_index L
  /\ trans_index L1
     = ((trans_index L + 1) mod List.length transition_paths)%nat
  /\ program C = S (S (next_name W))
  /\ ticks W1 = ticks W /\ polls W1 = polls W
  /\ next_name W1 = S (S (S (next_name W)))
  /\ out W1 =
     (out W ++ Print (fragment_path C)
            :: create_trace (next_name W) vertex_src
                            (source_of (fragment_path C))
            ++ [GlUseProgram (program C)])%list.
Proof.
  unfold cycle_prologue, bind, lift.
  destruct (subscript textures (image_index L)) as [|t1] eqn:E1;
    [discriminate |].
  destruct (py_mod (image_index L + 1) (List.length textures)) as [|i2] eqn:E2;
    [discriminate |].
  destruct (subscript textures i2) as [|t2] eqn:E3; [discriminate |].
  destruct (subscript transition_paths (trans_index L)) as [|path] eqn:E4;
    [discriminate |].
  destruct (py_mod (trans_index L + 1) (List.length transition_paths))
    as [|ti] eqn:E5; [discriminate |].
  destruct (create_program _ _ _ _) as [p Wp | |] eqn:E6; try discriminate.
  intros [= <- <- <-]. simpl.
  apply subscript_inr in E1, E3, E4.
  apply py_mod_inr in E2 as [Hm ->], E5 as [Hn ->].
  apply create_program_ok in E6 as (-> & Ht & Hp & Hnn & Ho). simpl in *.
  repeat split; try assumption.
  rewrite Ho, <- !app_assoc. reflexivity.
Qed.

Lemma hold_phase_ok fuel C W W' :
  hold_phase env fuel C W = Ok tt W' ->
  exists k,
    ticks W' = (ticks W + k + 2)%nat /\ polls W' = (polls W + k)%nat
    /\ next_name W' = next_name W
    /\ out W' = (out W ++ hold_frames C k)%list.
Proof.
  unfold hold_phase; simpl. intros H.
  apply hold_loop_ok in H as (k & Ht & Hp & Hn & Ho). simpl in *.
  exists k. repeat split; try assumption; lia.
Qed.

Lemma transition_phase_ok fuel C W n W' :
  transition_phase env fuel C W = Ok n W' ->
  ticks W' = (ticks W + n + 1)%nat /\ polls W' = (polls W + n)%nat
  /\ next_name W' = next_name W
  /\ out W' =
     (out W ++ transition_frames C
            (sampled env (clock env (ticks W)) (S (ticks W)) n))%list
  /\ (forall i, (S i < n)%nat ->
        progress_at (clock env (ticks W)) (clock env (S (ticks W) + i)) < 1)
  /\ (window_should_close env W' = true
      \/ exists i, n = S i /\
           progress_at (clock env (ticks W)) (clock env (S (ticks W) + i))
           == 1).
Proof.
  unfold transition_phase; simpl. intros H.
  apply transition_loop_ok in H as (m & -> & Ht & Hp & Hn & Ho & Hlt & Hend).
  simpl in *. repeat split; try assumption; try lia.
  - intros i Hi. now apply progress_not_done, Hlt.
  - destruct Hend as [Hend | (i & -> & Hi)]; [now left | right].
    exists i. split; [reflexivity | now apply progress_done_iff].
Qed.

(** C2.  While the clock readings do not decrease from the reading taken
    on entry, every frame of the transition phase is drawn with progress
    clamp(elapsed / transition_duration, 0, 1), elapsed being measured
    from that entry reading; the values never decrease from one frame to
    the next and never exceed 1; a frame drawn at 1 is the last one, and a
    phase left while the window stays open ends on such a frame.  The
    phase does end, within [j+1] frames, when the [j]-th reading has
    reached the duration. *)
Theorem transition_progress fuel C W :
  (forall i j, (ticks W <= i)%nat -> (i <= j)%nat ->
               clock env i <= clock env j) ->
  let start_time := clock env (ticks W) in
  (forall n W',
      transition_phase env fuel C W = Ok n W' ->
      let frames := sampled env start_time (S (ticks W)) n in
      out W' = (out W ++ transition_frames C frames)%list
      /\ List.length frames = n
      /\ (forall i, (i < n)%nat ->
            nth i frames 0 ==
            clamp ((clock env (S (ticks W) + i) - start_time)
                   / transition_duration) 0 1)
      /\ (forall i j, (i <= j)%nat -> (j < n)%nat ->
            nth i frames 0 <= nth j frames 0)
      /\ (forall i, (i < n)%nat -> nth i frames 0 <= 1)
      /\ (forall i, (i < n)%nat -> nth i frames 0 == 1 -> S i = n)
      /\ (window_should_close env W' = false ->
          exists i, n = S i /\ nth i frames 0 == 1))
  /\ (forall j,
        transition_duration <= clock env (S (ticks W) + j) - start_time ->
        (j < fuel)%nat ->
        exists n W', transition_phase env fuel C W = Ok n W').
Proof.
  intros Hmono start_time. split.
  - intros n W' H frames.
    apply transition_phase_ok in H as (_ & _ & _ & Ho & Hlt & Hend).
    fold start_time in Ho, Hlt, Hend. fold frames in Ho.
    split; [exact Ho |]. split; [apply sampled_length |].
    split; [| split; [| split; [| split]]].
    + intros i Hi. unfold frames. rewrite sampled_nth by exact Hi.
      apply progress_at_clamp. apply Hmono; lia.
    + intros i j Hij Hj. unfold frames. rewrite !sampled_nth by lia.
      apply progress_at_mono. apply Hmono; lia.
    + intros i Hi. unfold frames. rewrite sampled_nth by exact Hi.
      apply progress_at_le_1.
    + intros i Hi Hone. unfold frames in Hone.
      rewrite sampled_nth in Hone by exact Hi.
      destruct (Nat.eq_dec (S i) n) as [Heq | Hne]; [exact Heq |].
      assert (Hsi : (S i < n)%nat) by lia.
      specialize (Hlt i Hsi). rewrite Hone in Hlt. discriminate Hlt.
    + intros Hopen. destruct Hend as [Hclosed | (i & -> & Hi)];
        [congruence |].
      exists i. split; [reflexivity |]. unfold frames.
      now rewrite sampled_nth by lia.
  - intros j Hj Hfuel. unfold transition_phase; simpl.
    destruct (transition_loop_terminates env start_time C j fuel 0%nat
                {| ticks := S (ticks W); polls := polls W;
                   next_name := next_name W; out := out W |})
      as (n & W' & HW' & _); [| exact Hfuel | now exists n, W'].
    right. simpl. apply progress_done_iff.
    unfold progress_at. apply Q.min_r.
    apply Qle_shift_div_l; [apply transition_duration_pos |].
    now rewrite Qmult_1_l.
Qed.

Lemma cycle_inv fuel L W L2 W2 :
  body fuel L W = Ok L2 W2 ->
  exists L1 C W1 Wh n Wt,
    prologue L W = Ok (L1, C) W1
    /\ hold_phase env fuel C W1 = Ok tt Wh
    /\ transition_phase env fuel C Wh = Ok n Wt
    /\ epilogue L1 C n Wt = Ok L2 W2.
Proof.
  unfold cycle, bind.
  destruct (prologue L W) as [[L1 C] W1 | |] eqn:E1;
    try discriminate. simpl.
  destruct (hold_phase env fuel C W1) as [[] Wh | |] eqn:E2; try discriminate.
  destruct (transition_phase env fuel C Wh) as [n Wt | |] eqn:E3;
    try discriminate.
  intros H. now exists L1, C, W1, Wh, n, Wt.
Qed.

Lemma cycle_epilogue_ok L1 C n Wt L2 W2 :
  epilogue L1 C n Wt = Ok L2 W2 ->
  image_index L2 = ((image_index L1 + 1) mod List.length textures)%nat
  /\ trans_index L2 = trans_index L1
  /\ ticks W2 = ticks Wt /\ polls W2 = polls Wt
  /\ next_name W2 = next_name Wt
  /\ out W2 =
     (out Wt ++ [PrintFps (inject_Z (Z.of_nat n) / transition_duration);
                 GlDeleteProgram (program C)])%list.
Proof.
  unfold cycle_epilogue, bind, lift.
  destruct (py_mod _ _) as [|ii] eqn:E; [discriminate |].
  apply py_mod_inr in E as [_ ->]. intros [= <- <-]. simpl.
  repeat split. now rewrite <- app_assoc.
Qed.

(** One full iteration, seen from outside. *)
Lemma cycle_ok fuel L W L2 W2 :
  body fuel L W = Ok L2 W2 ->
  exists C hold n,
    nth_error textures (image_index L) = Some (tex1 C)
    /\ nth_error textures ((image_index L + 1) mod List.length textures)
       = Some (tex2 C)
    /\ nth_error transition_paths (trans_index L) = Some (fragment_path C)
    /\ program C = S (S (next_name W))
    /\ image_index L2 = ((image_index L + 1) mod List.length textures)%nat
    /\ trans_index L2
       = ((trans_index L + 1) mod List.length transition_paths)%nat
    /\ next_name W2 = S (S (S (next_name W)))
    /\ polls W2 = (polls W + hold + n)%nat
    /\ out W2 =
       (out W ++ cycle_trace vertex_src (source_of (fragment_path C))
                             (next_name W) C hold
                             (sampled env (clock env (ticks W + hold + 2))
                                      (ticks W + hold + 3) n))%list.
Proof.
  intros H. apply cycle_inv in H as (L1 & C & W1 & Wh & n & Wt & Hp & Hh & Ht & He).
  apply cycle_prologue_ok in Hp
    as (H1 & H2 & H3 & _ & _ & Hi & Hti & Hprog & Ht1 & Hp1 & Hn1 & Ho1).
  apply hold_phase_ok in Hh as (k & Hth & Hph & Hnh & Hoh).
  apply transition_phase_ok in Ht as (Htt & Hpt & Hnt & Hot & _ & _).
  apply cycle_epilogue_ok in He as (Hi2 & Hti2 & _ & Hp2 & Hn2 & Ho2).
  exists C, k, n. repeat split; try congruence; try lia.
  rewrite Ho2, Hot, Hoh, Ho1, Hth, Ht1. unfold cycle_trace, sampled.
  rewrite length_map, length_seq.
  replace (S (ticks W + k + 2)) with (ticks W + k + 3)%nat by lia.
  rewrite <- !app_assoc. reflexivity.
Qed.

Lemma after_cycles_indices fuel W0 : forall K L W,
  cycles K fuel initial_locals W0 = Some (L, W) ->
  image_index L = (K mod List.length textures)%nat
  /\ trans_index L = (K mod List.length transition_paths)%nat.
Proof.
  induction K as [|K IH]; intros L W; simpl.
  - intros [= <- <-]. simpl. now rewrite !Nat.Div0.mod_0_l.
  - destruct (cycles K fuel initial_locals W0) as [[L1 W1]|];
      [| discriminate].
    destruct (window_should_close env W1); [discriminate |].
    destruct (body fuel L1 W1) as [L2 W2 | |] eqn:E;
      try discriminate.
    intros [= <- <-]. destruct (IH L1 W1 eq_refl) as [Hi Ht].
    apply cycle_ok in E as (C & k & n & _ & _ & _ & _ & Hi2 & Ht2 & _).
    rewrite Hi2, Ht2, Hi, Ht, !Nat.Div0.add_mod_idemp_l, !Nat.add_1_r.
    split; reflexivity.
Qed.

(** *** Lifecycle of the program of a cycle *)

Lemma lifecycle_app s evs1 evs2 :
  lifecycle s (evs1 ++ evs2) =
  match lifecycle s evs1 with
  | Some s' => lifecycle s' evs2
  | None => None
  end.
Proof.
  revert s. induction evs1 as [|e evs1 IH]; intros s; simpl;
    [reflexivity |].
  destruct (lifecycle_step s e); [apply IH | reflexivity].
Qed.

Lemma lifecycle_stay s evs :
  Forall (fun e => lifecycle_step s e = Some s) evs ->
  lifecycle s evs = Some s.
Proof.
  induction 1 as [|e evs He _ IH]; simpl; [reflexivity |].
  now rewrite He.
Qed.

Lemma inert_step s e : inert e = true -> lifecycle_step s e = Some s.
Proof. destruct e as [| | | ? ? ? []| | | | |]; simpl; congruence. Qed.

Lemma lifecycle_inert s evs :
  forallb inert evs = true -> lifecycle s evs = Some s.
Proof.
  intros H. apply lifecycle_stay. rewrite forallb_forall in H.
  apply Forall_forall. intros e He. now apply inert_step, H.
Qed.

Lemma is_destroyed_fresh p s :
  Forall (fun d => (d < p)%nat) (destroyed s) -> is_destroyed p s = false.
Proof.
  unfold is_destroyed. induction 1 as [|d l Hd _ IH]; simpl;
    [reflexivity |].
  rewrite IH, orb_false_r. apply Nat.eqb_neq. lia.
Qed.

Lemma lifecycle_cycle_trace s v f a C hold frames :
  live s = None ->
  is_destroyed (program C) s = false ->
  program C = S (S a) ->
  lifecycle s (cycle_trace v f a C hold frames) =
  Some {| live := None; destroyed := program C :: destroyed s |}.
Proof.
  intros Hlive Hfresh Hp. unfold cycle_trace, create_trace.
  cbn [lifecycle lifecycle_step app]. rewrite Hlive, <- Hp, Hfresh.
  cbn [lifecycle lifecycle_step]. 
  set (s1 := {| live := Some (program C); destroyed := destroyed s |}).
  assert (Hs1 : is_live (program C) s1 && negb (is_destroyed (program C) s1)
                = true).
  { unfold is_live, is_destroyed in *; simpl.
    now rewrite Nat.eqb_refl, Hfresh. }
  rewrite Hs1, lifecycle_app.
  rewrite (lifecycle_stay s1 (hold_frames C hold)).
  2:{ unfold hold_frames. apply Forall_forall. intros e He.
      apply repeat_spec in He. subst e. simpl. now rewrite Hs1. }
  rewrite lifecycle_app, (lifecycle_stay s1 (transition_frames C frames)).
  2:{ unfold transition_frames. apply Forall_forall. intros e He.
      apply in_map_iff in He as (q & <- & _). simpl. now rewrite Hs1. }
  simpl. now rewrite Hs1.
Qed.

Lemma lifecycle_counts : forall evs s s',
  lifecycle s evs = Some s' ->
  (List.length (filter is_link evs) + List.length (destroyed s)
   + match live s with Some _ => 1 | None => 0 end
   = List.length (destroyed s') + match live s' with Some _ => 1 | None => 0 end)%nat
  /\ (List.length (filter is_delete evs) + List.length (destroyed s)
      = List.length (destroyed s'))%nat.
Proof.
  induction evs as [|e evs IH]; intros s s'; simpl.
  - intros [= <-]. lia.
  - destruct (lifecycle_step s e) as [s1|] eqn:E; [| discriminate].
    intros H. apply IH in H as [H1 H2].
    destruct e as [| | |p a b []| |p|p t1 t2 q|p|]; simpl in *;
      try (injection E as <-; simpl; lia).
    + destruct (live s); [discriminate |].
      destruct (is_destroyed p s); [discriminate |].
      injection E as <-. simpl in *. lia.
    + destruct (_ && _); [| discriminate]. injection E as <-. lia.
    + destruct (_ && _); [| discriminate]. injection E as <-. lia.
    + destruct (is_live p s && _) eqn:El; [| discriminate].
      injection E as <-. simpl in *.
      apply andb_true_iff in El as [El _]. unfold is_live in El.
      destruct (live s); [lia | discriminate].
Qed.

Lemma settled_balanced W :
  settled W ->
  List.length (filter is_link (out W))
  = List.length (filter is_delete (out W)).
Proof.
  intros (s & Hs & Hlive & _).
  apply lifecycle_counts in Hs as [H1 H2]. rewrite Hlive in H1.
  simpl in *. lia.
Qed.

Lemma settled_cycle fuel L W L2 W2 :
  settled W -> body fuel L W = Ok L2 W2 -> settled W2.
Proof.
  intros (s & Hs & Hlive & Hold) H.
  apply cycle_ok in H as (C & k & n & _ & _ & _ & Hp & _ & _ & Hn & _ & Ho).
  exists {| live := None; destroyed := program C :: destroyed s |}.
  rewrite Ho, lifecycle_app, Hs. split; [| split].
  - apply lifecycle_cycle_trace; [exact Hlive | | exact Hp].
    apply is_destroyed_fresh. rewrite Hp.
    eapply Forall_impl; [| exact Hold]. simpl. intros d Hd. lia.
  - reflexivity.
  - simpl. constructor; [lia |].
    eapply Forall_impl; [| exact Hold]. simpl. intros d Hd. lia.
Qed.

Lemma settled_inert W W' evs :
  settled W -> out W' = (out W ++ evs)%list -> forallb inert evs = true ->
  (next_name W <= next_name W')%nat -> settled W'.
Proof.
  intros (s & Hs & Hlive & Hold) Ho Hevs Hn. exists s.
  rewrite Ho, lifecycle_app, Hs. split; [now apply lifecycle_inert |].
  split; [exact Hlive |].
  eapply Forall_impl; [| exact Hold]. simpl. intros d Hd. lia.
Qed.

Lemma create_program_raise_inert v f W e W' :
  create_program env v f W = Raise e W' ->
  exists evs, out W' = (out W ++ evs)%list /\ forallb inert evs = true
              /\ (next_name W <= next_name W')%nat.
Proof.
  unfold create_program, compile_shader, bind; simpl.
  destruct (compile_status env GL_VERTEX_SHADER v); simpl.
  - destruct (compile_status env GL_FRAGMENT_SHADER f); simpl.
    + destruct (link_status env v f); [discriminate |].
      intros [= <- <-]. simpl. rewrite <- !app_assoc.
      eexists; split; [reflexivity |]. split; [reflexivity | lia].
    + intros [= <- <-]. simpl. rewrite <- !app_assoc.
      eexists; split; [reflexivity |]. split; [reflexivity | lia].
  - intros [= <- <-]. simpl.
    eexists; split; [reflexivity |]. split; [reflexivity | lia].
Qed.

Lemma cycle_raise_inert fuel L W e W' :
  body fuel L W = Raise e W' ->
  exists evs, out W' = (out W ++ evs)%list /\ forallb inert evs = true
              /\ (next_name W <= next_name W')%nat.
Proof.
  unfold cycle.
  destruct (prologue L W) as [[L1 C] W1 | e1 W1 |] eqn:E1; simpl;
    try discriminate.
  - apply cycle_prologue_ok in E1 as (_ & _ & _ & Hm & _).
    destruct (hold_phase env fuel C W1) as [[] Wh | eh Wh |] eqn:E2; simpl;
      try discriminate.
    + destruct (transition_phase env fuel C Wh) as [n Wt | et Wt |] eqn:E3;
        simpl; try discriminate.
      * unfold cycle_epilogue, bind, lift, py_mod.
        destruct (List.length textures); [congruence | discriminate].
      * unfold transition_phase in E3; simpl in E3.
        now apply transition_loop_no_raise in E3.
    + unfold hold_phase in E2; simpl in E2.
      now apply hold_loop_no_raise in E2.
  - intros [= <- <-]. revert E1.
    unfold cycle_prologue, bind, lift.
    destruct (subscript textures (image_index L)) as [|t1].
    { intros [= <- <-]. exists []. rewrite app_nil_r. now repeat split. }
    destruct (py_mod (image_index L + 1) (List.length textures)) as [|i2].
    { intros [= <- <-]. exists []. rewrite app_nil_r. now repeat split. }
    destruct (subscript textures i2) as [|t2].
    { intros [= <- <-]. exists []. rewrite app_nil_r. now repeat split. }
    destruct (subscript transition_paths (trans_index L)) as [|path].
    { intros [= <- <-]. exists []. rewrite app_nil_r. now repeat split. }
    destruct (py_mod (trans_index L + 1) (List.length transition_paths))
      as [|ti].
    { intros [= <- <-]. exists []. rewrite app_nil_r. now repeat split. }
    destruct (create_program _ _ _ _) as [p Wp | ec Wc |] eqn:E6;
      try discriminate.
    intros [= <- <-].
    apply create_program_raise_inert in E6 as (evs & Ho & Hevs & Hn).
    simpl in Ho, Hn. exists (Print path :: evs).
    rewrite Ho, <- app_assoc. now repeat split.
Qed.

(** C3.  From a settled world, the events of a run respect the program
    lifecycle at every head of the outer loop, at a normal exit and at an
    exit by exception: a program is linked only while none is live and
    under a name never destroyed, used and drawn with only while live,
    destroyed only while live; no program is live at those points, and as
    many programs were destroyed as were linked with success. *)
Theorem program_lifecycle fuel L W :
  settled W ->
  (forall K L' W',
      cycles K fuel L W = Some (L', W') ->
      settled W'
      /\ List.length (filter is_link (out W'))
         = List.length (filter is_delete (out W')))
  /\ (forall n W',
        loop n fuel L W = Ok tt W' ->
        settled W'
        /\ List.length (filter is_link (out W'))
           = List.length (filter is_delete (out W')))
  /\ (forall n e W',
        loop n fuel L W = Raise e W' ->
        settled W'
        /\ List.length (filter is_link (out W'))
           = List.length (filter is_delete (out W'))).
Proof.
  intros HW.
  assert (Hcycles : forall K L' W',
             cycles K fuel L W = Some (L', W') -> settled W').
  { induction K as [|K IH]; intros L' W'; simpl.
    - now intros [= <- <-].
    - destruct (cycles K fuel L W) as [[L1 W1]|];
        [| discriminate].
      destruct (window_should_close env W1); [discriminate |].
      destruct (body fuel L1 W1) as [L2 W2 | |] eqn:E;
        try discriminate.
      intros [= <- <-]. eapply settled_cycle; [| exact E]. now eapply IH. }
  assert (Hloop : forall n L0 W0 W',
             settled W0 ->
             (loop n fuel L0 W0 = Ok tt W' -> settled W')
             /\ (forall e, loop n fuel L0 W0 = Raise e W' -> settled W')).
  { induction n as [|n IH]; intros L0 W0 W' H0; simpl.
    - split; [discriminate | intros e; discriminate].
    - destruct (window_should_close env W0).
      + split; [| intros e; discriminate]. intros [= <-].
        apply (settled_inert W0 _ [GlfwTerminate]); auto.
      + destruct (body fuel L0 W0) as [L1 W1 | e1 W1 |] eqn:E; simpl.
        * apply IH. eapply settled_cycle; eassumption.
        * split; [discriminate |]. intros e [= <- <-].
          apply cycle_raise_inert in E as (evs & Ho & Hevs & Hn).
          now apply (settled_inert W0 _ evs).
        * split; [discriminate | intros e; discriminate]. }
  split; [| split].
  - intros K L' W' H. apply Hcycles in H.
    split; [exact H | now apply settled_balanced].
  - intros n W' H. apply (Hloop n L W W' HW) in H.
    split; [exact H | now apply settled_balanced].
  - intros n e W' H. apply (proj2 (Hloop n L W W' HW)) in H.
    split; [exact H | now apply settled_balanced].
Qed.

Lemma create_program_failure v f W log :
  failure_log env v f = Some log ->
  exists W' evs,
    create_program env v f W = Raise (RuntimeError log) W'
    /\ out W' = (out W ++ evs)%list.
Proof.
  unfold failure_log. intros H.
  destruct (create_program_raises v f W) as (Hv & Hf & Hl).
  destruct (compile_status env GL_VERTEX_SHADER v); simpl in H.
  - destruct (compile_status env GL_FRAGMENT_SHADER f); simpl in H.
    + destruct (link_status env v f); simpl in H; [discriminate |].
      injection H as <-.
      destruct (Hl eq_refl eq_refl eq_refl) as (W' & HW' & evs & Ho).
      now exists W', evs.
    + injection H as <-.
      destruct (Hf eq_refl eq_refl) as (W' & HW' & evs & Ho).
      now exists W', evs.
  - injection H as <-. destruct (Hv eq_refl) as (W' & HW' & evs & Ho).
    now exists W', evs.
Qed.

Lemma prologue_reaches_create L W path :
  (image_index L < List.length textures)%nat ->
  nth_error transition_paths (trans_index L) = Some path ->
  exists t1 t2,
    prologue L W =
    bind (create_program env vertex_src (source_of path)
                         (emit (Print path) W))
         (fun p W' =>
            Ok ({| image_index := image_index L;
                   trans_index := ((trans_index L + 1)
                                   mod List.length transition_paths)%nat |},
                {| tex1 := t1; tex2 := t2; fragment_path := path;
                   program := p |})
               (emit (GlUseProgram p) W')).
Proof.
  intros Hi Hpath.
  destruct (nth_error textures (image_index L)) as [t1|] eqn:E1.
  2:{ apply nth_error_None in E1. lia. }
  destruct (List.length textures) as [|m] eqn:Em; [lia |].
  assert (Hlt : ((image_index L + 1) mod S m < List.length textures)%nat).
  { rewrite Em. apply Nat.mod_upper_bound. discriminate. }
  destruct (nth_error textures ((image_index L + 1) mod S m)) as [t2|] eqn:E2.
  2:{ apply nth_error_None in E2. lia. }
  destruct (List.length transition_paths) as [|k] eqn:Ek.
  { apply length_zero_iff_nil in Ek. rewrite Ek in Hpath.
    destruct (trans_index L); discriminate. }
  exists t1, t2.
  unfold cycle_prologue, subscript, py_mod, bind, lift.
  rewrite E1, Em. cbv beta iota. rewrite E2, Hpath, Ek. reflexivity.
Qed.

(** C7.  When the status of a stage or of the link is unsuccessful,
    [create_program] raises an error whose message is the diagnostic of
    the driver for that stage or link, unchanged; the error leaves the
    outer loop as it is, after the path of the effect file was printed. *)
Theorem shader_failure_surfaces_log n fuel L W path log :
  window_should_close env W = false ->
  (image_index L < List.length textures)%nat ->
  nth_error transition_paths (trans_index L) = Some path ->
  failure_log env vertex_src (source_of path) = Some log ->
  (forall W0, exists W1,
      create_program env vertex_src (source_of path) W0
      = Raise (RuntimeError log) W1)
  /\ exists W',
      loop (S n) fuel L W = Raise (RuntimeError log) W'
      /\ message (RuntimeError log) = log
      /\ In path (printed (out W')).
Proof.
  intros Hopen Hi Hpath Hlog. split.
  - intros W0.
    destruct (create_program_failure _ _ W0 _ Hlog) as (W1 & _ & H1 & _).
    now exists W1.
  - destruct (prologue_reaches_create L W path Hi Hpath) as (t1 & t2 & Hpro).
    destruct (create_program_failure _ _ (emit (Print path) W) _ Hlog)
      as (W' & evs & HW' & Ho).
    exists W'. split; [| split; [reflexivity |]].
    + simpl. rewrite Hopen. unfold cycle.
      rewrite Hpro, HW'. reflexivity.
    + rewrite Ho. simpl. unfold printed. rewrite !flat_map_app.
      apply in_or_app. left. apply in_or_app. right. now left.
Qed.

(** C8, as the code has it.  In a cycle that runs to its end the effect
    path is read at the old transition index and that index is advanced
    at once, modulo the number of effects, before the program is compiled
    and before any frame of the cycle; the image index is left alone
    until the cycle's frames are drawn and its rate is printed, and is
    advanced then, modulo the number of textures. *)
Theorem indices_advance fuel L W L2 W2 :
  body fuel L W = Ok L2 W2 ->
  exists L1 C W1 Wh n Wt,
    prologue L W = Ok (L1, C) W1
    /\ nth_error transition_paths (trans_index L) = Some (fragment_path C)
    /\ image_index L1 = image_index L
    /\ trans_index L1
       = ((trans_index L + 1) mod List.length transition_paths)%nat
    /\ filter is_draw (out W1) = filter is_draw (out W)
    /\ hold_phase env fuel C W1 = Ok tt Wh
    /\ transition_phase env fuel C Wh = Ok n Wt
    /\ epilogue L1 C n Wt = Ok L2 W2
    /\ image_index L2
       = ((image_index L + 1) mod List.length textures)%nat
    /\ trans_index L2 = trans_index L1.
Proof.
  intros H.
  apply cycle_inv in H as (L1 & C & W1 & Wh & n & Wt & Hp & Hh & Ht & He).
  exists L1, C, W1, Wh, n, Wt.
  pose proof (cycle_prologue_ok _ _ _ _ _ Hp)
    as (_ & _ & H3 & _ & _ & Hi & Hti & _ & _ & _ & _ & Ho).
  pose proof (cycle_epilogue_ok _ _ _ _ _ _ He) as (Hi2 & Hti2 & _).
  repeat split; try assumption.
  - rewrite Ho, filter_app. simpl. now rewrite app_nil_r.
  - now rewrite Hi2, Hi.
Qed.

(** C9, as the code has it.  The frames drawn between entry to and exit
    from the transition phase are counted, and when the phase is left the
    count divided by the configured [transition_duration] is printed,
    whatever time the phase took; frames of the hold phase are drawn
    before the entry and are not counted. *)
Theorem fps_report fuel L1 C Wh n Wt L2 W2 :
  transition_phase env fuel C Wh = Ok n Wt ->
  epilogue L1 C n Wt = Ok L2 W2 ->
  exists frames,
    out Wt = (out Wh ++ transition_frames C frames)%list
    /\ List.length (filter is_draw (transition_frames C frames)) = n
    /\ out W2 =
       (out Wt ++ [PrintFps (inject_Z (Z.of_nat n) / transition_duration);
                   GlDeleteProgram (program C)])%list.
Proof.
  intros Ht He.
  apply transition_phase_ok in Ht as (_ & _ & _ & Ho & _).
  apply cycle_epilogue_ok in He as (_ & _ & _ & _ & _ & Ho2).
  eexists. split; [exact Ho |]. split; [| exact Ho2].
  unfold transition_frames.
  rewrite <- (sampled_length env (clock env (ticks Wh)) (S (ticks Wh)) n)
    at 2.
  generalize (sampled env (clock env (ticks Wh)) (S (ticks Wh)) n).
  induction l as [|q l IH]; simpl; [reflexivity | now rewrite IH].
Qed.

Lemma frames_not_delete C hold frames :
  filter is_delete (hold_frames C hold ++ transition_frames C frames) = [].
Proof.
  rewrite filter_app. unfold hold_frames, transition_frames.
  replace (filter is_delete (repeat _ hold)) with (@nil Event)
    by (induction hold; simpl; auto).
  induction frames; simpl; auto.
Qed.

(** C10.  Once the program of a cycle is compiled, if the window-close
    flag is raised by the [j]-th frame from there, the cycle runs to its
    end within [j] frames: it draws hold and transition frames with that
    program, prints the rate and destroys the program, once, as its last
    event; the outer loop, finding the flag raised, then leaves with
    [glfw.terminate] and compiles nothing more. *)
Theorem cancellation_destroys_program fuel L W L1 C W1 j :
  prologue L W = Ok (L1, C) W1 ->
  close_flag env (polls W1 + j) = true ->
  (j < fuel)%nat ->
  exists L2 W2 hold frames,
    body fuel L W = Ok L2 W2
    /\ out W2 =
       (out W1 ++ (hold_frames C hold ++ transition_frames C frames)
              ++ [PrintFps (inject_Z (Z.of_nat (List.length frames))
                            / transition_duration);
                  GlDeleteProgram (program C)])%list
    /\ filter is_delete (hold_frames C hold ++ transition_frames C frames)
       = []
    /\ (polls W2 <= polls W1 + j)%nat
    /\ (window_should_close env W2 = true ->
        forall n, loop (S n) fuel L2 W2 = Ok tt (emit GlfwTerminate W2)).
Proof.
  intros Hp Hflag Hfuel.
  pose proof (cycle_prologue_ok _ _ _ _ _ Hp) as (_ & _ & _ & Hm & _).
  destruct (hold_loop_terminates env (clock env (ticks W1)) C j fuel
              (snd (time_time env W1)) Hflag Hfuel) as (Wh & Hh & Hle).
  assert (Hhold : hold_phase env fuel C W1 = Ok tt Wh) by exact Hh.
  pose proof (hold_phase_ok _ _ _ _ Hhold) as (k & Hth & Hph & _ & Hoh).
  simpl in Hle.
  destruct (transition_loop_cancelled env (clock env (ticks Wh)) C (j - k)
              fuel 0%nat (snd (time_time env Wh))) as (n & Wt & Ht & Hlt).
  { simpl. rewrite Hph. now replace (polls W1 + k + (j - k))%nat
      with (polls W1 + j)%nat by lia. }
  { lia. }
  assert (Htrans : transition_phase env fuel C Wh = Ok n Wt) by exact Ht.
  pose proof (transition_phase_ok _ _ _ _ _ Htrans)
    as (_ & Hpt & _ & Hot & _).
  simpl in Hlt.
  destruct (List.length textures) as [|m] eqn:Em; [congruence |].
  set (L2 := {| image_index := ((image_index L1 + 1) mod S m)%nat;
                trans_index := trans_index L1 |}).
  set (W2 := emit (GlDeleteProgram (program C))
               (emit (PrintFps (inject_Z (Z.of_nat n) / transition_duration))
                     Wt)).
  assert (Hbody : body fuel L W = Ok L2 W2).
  { unfold cycle. rewrite Hp. simpl.
    rewrite Hhold. simpl. rewrite Htrans. simpl.
    unfold cycle_epilogue, py_mod, bind, lift. rewrite Em. reflexivity. }
  exists L2, W2, k, (sampled env (clock env (ticks Wh)) (S (ticks Wh)) n).
  split; [exact Hbody |]. split; [| split; [| split]].
  - unfold W2. simpl. rewrite Hot, Hoh, sampled_length.
    rewrite <- !app_assoc. reflexivity.
  - apply frames_not_delete.
  - unfold W2. simpl. lia.
  - intros Hclosed n0. simpl. now rewrite Hclosed.
Qed.

End Cycles.

End PlayerFacts.

(** ** The model at work on the small installation *)
Module ScenarioFacts.
Import Player Scenario.
Local Open Scope Q_scope.

Lemma initial_world_settled : settled initial_world.
Proof. exists no_program. repeat split. constructor. Qed.

(** Three images and two effects, one second between clock readings: the
    cycles play (a,b) with fade, (b,c) with wipe, (c,a) with fade, and the
    fourth repeats the first. *)
Example end_to_end :
  exists L W,
    after_cycles (driver 1 100 []) textures transition_paths
                 vertex_src header_src footer_src 4 10
                 initial_locals initial_world = Some (L, W)
    /\ printed (out W) =
       ["transitions/fade.glsl"; "transitions/wipe.glsl";
        "transitions/fade.glsl"; "transitions/wipe.glsl"]%string
    /\ drawn_pairs (out W) =
       [(101, 102); (101, 102); (102, 103); (102, 103);
        (103, 101); (103, 101); (101, 102); (101, 102)]%nat.
Proof. do 2 eexists. split; [vm_compute; reflexivity |]. split; reflexivity. Qed.

Lemma scenario_clock_monotone (i j : nat) :
  (i <= j)%nat -> clock env i <= clock env j.
Proof. intros H. unfold Qle; simpl. lia. Qed.

Lemma transition_progress_witness :
  exists n W',
    transition_phase env 10 first_cycle initial_world = Ok n W'.
Proof.
  refine (proj2 (PlayerFacts.transition_progress env 10 first_cycle
                   initial_world _) 2%nat _ _).
  - intros i j _ Hij. now apply scenario_clock_monotone.
  - vm_compute. discriminate.
  - lia.
Defined.

Lemma program_lifecycle_witness :
  exists W',
    main_loop env textures transition_paths vertex_src header_src footer_src
              10 10 initial_locals initial_world = Ok tt W'
    /\ settled W'
    /\ List.length (filter is_link (out W'))
       = List.length (filter is_delete (out W')).
Proof.
  eexists. split; [vm_compute; reflexivity |].
  apply (proj1 (proj2 (PlayerFacts.program_lifecycle
                         env textures transition_paths
                         vertex_src header_src footer_src 10
                         initial_locals initial_world
                         initial_world_settled)) 10%nat).
  vm_compute; reflexivity.
Defined.

Lemma shader_failure_surfaces_log_witness :
  exists W',
    main_loop broken_env textures transition_paths
              vertex_src header_src footer_src 1 5
              initial_locals initial_world
    = Raise (RuntimeError ("0:1(1): error: " ++ fade_source)) W'
    /\ In "transitions/fade.glsl"%string (printed (out W')).
Proof.
  destruct (PlayerFacts.shader_failure_surfaces_log
              broken_env textures transition_paths
              vertex_src header_src footer_src 0 5
              initial_locals initial_world "transitions/fade.glsl"
              ("0:1(1): error: " ++ fade_source))
    as (_ & W' & Hloop & _ & Hprinted).
  - reflexivity.
  - simpl; lia.
  - reflexivity.
  - reflexivity.
  - exists W'. split; assumption.
Defined.

(** C8 fails as stated: in the first cycle the transition index is 1
    already when the hold phase is entered. *)
Lemma trans_index_advanced_before_hold :
  ~ indices_kept_until_cycle_end env textures transition_paths
                                 vertex_src header_src footer_src.
Proof.
  intros H.
  edestruct (H initial_locals initial_world) as [_ Ht].
  - vm_compute. reflexivity.
  - discriminate Ht.
Qed.

Lemma indices_advance_witness :
  exists L2 W2,
    cycle env textures transition_paths vertex_src header_src footer_src
          10 initial_locals initial_world = Ok L2 W2
    /\ image_index L2 = 1%nat /\ trans_index L2 = 1%nat.
Proof.
  do 2 eexists. split; [vm_compute; reflexivity |].
  edestruct (PlayerFacts.indices_advance
               env textures transition_paths
               vertex_src header_src footer_src 10
               initial_locals initial_world)
    as (L1 & C & W1 & Wh & n & Wt & _ & _ & _ & Ht1 & _ & _ & _ & _ & Hi & Ht).
  - vm_compute. reflexivity.
  - split; [exact Hi | now rewrite Ht, Ht1].
Defined.

(** C9 fails as stated: with two seconds between clock readings the
    transition takes one frame and two seconds, and the rate printed is
    1 / 1.5, not 1 / 2. *)
Lemma fps_is_not_measured_rate :
  ~ fps_is_frames_over_time_taken slow_env textures.
Proof.
  intros H.
  edestruct (H 5%nat initial_locals first_cycle initial_world)
    as (fps & Ho & Hfps).
  - vm_compute. reflexivity.
  - vm_compute. reflexivity.
  - vm_compute in Ho. injection Ho as <-.
    vm_compute in Hfps. discriminate Hfps.
Qed.

Lemma fps_report_witness :
  exists frames W2,
    List.length (filter is_draw (transition_frames first_cycle frames))
    = 1%nat
    /\ In (PrintFps (inject_Z 1 / transition_duration)) (out W2).
Proof.
  edestruct (PlayerFacts.fps_report slow_env textures 5 initial_locals
                                    first_cycle initial_world)
    as (frames & _ & Hn & Ho).
  - vm_compute. reflexivity.
  - vm_compute. reflexivity.
  - exists frames. eexists. split; [exact Hn |].
    rewrite Ho. apply in_or_app. right. now left.
Defined.

(** Without a lower clamp in the code, a clock set back during the
    transition gives a frame below 0: the hypothesis of C2 on the clock
    readings is needed. *)
Example backward_clock_negative_progress :
  exists W',
    transition_phase backward_env 5 first_cycle initial_world = Ok 2%nat W'
    /\ out W' = [GlDraw 3 101 102 (-6 # 3); GlDraw 3 101 102 1].
Proof. eexists. split; vm_compute; reflexivity. Qed.

(** The window is closed on the second frame of the hold phase. *)
Lemma cancellation_destroys_program_witness :
  exists L2 W2,
    cycle (driver 4 2 []) textures transition_paths
          vertex_src header_src footer_src 10 initial_locals initial_world
    = Ok L2 W2
    /\ main_loop (driver 4 2 []) textures transition_paths
                 vertex_src header_src footer_src 1 10 L2 W2
       = Ok tt (emit GlfwTerminate W2).
Proof.
  edestruct (PlayerFacts.cancellation_destroys_program
               (driver 4 2 []) textures transition_paths
               vertex_src header_src footer_src 10
               initial_locals initial_world)
    as (L2 & W2 & hold & frames & Hbody & _ & _ & _ & Hexit).
  - vm_compute. reflexivity.
  - instantiate (1 := 2%nat). reflexivity.
  - lia.
  - exists L2, W2. split; [exact Hbody |]. apply Hexit.
    vm_compute in Hbody. injection Hbody as _ <-. reflexivity.
Defined.

(** The window is closed on the first frame of the transition phase. *)
Example cancelled_in_transition :
  exists W',
    main_loop (driver 1 1 []) textures transition_paths
              vertex_src header_src footer_src 5 10
              initial_locals initial_world = Ok tt W'
    /\ drawn_pairs (out W') = [(101, 102)]%nat
    /\ skipn 7 (out W') =
       [GlDraw 3 101 102 (2 # 3); PrintFps (2 # 3);
        GlDeleteProgram 3; GlfwTerminate].
Proof. eexists. split; [vm_compute; reflexivity |]. split; reflexivity. Qed.

End ScenarioFacts.

(** ** Asset catalog, continued *)
Module CatalogMore.
Import Catalog CatalogFacts.

Lemma filter_perm (f : string -> bool) l l' :
  Permutation l l' -> Permutation (filter f l) (filter f l').
Proof.
  induction 1 as [| x l l' _ IH | x y l | l l' l'' _ IH1 _ IH2]; simpl.
  - constructor.
  - destruct (f x); [now constructor | exact IH].
  - destruct (f x), (f y); try reflexivity. apply perm_swap.
  - now transitivity (filter f l').
Qed.

Lemma sorted_perm_unique l1 :
  forall l2, StronglySorted le_name l1 -> StronglySorted le_name l2 ->
             Permutation l1 l2 -> l1 = l2.
Proof.
  induction l1 as [|a l1 IH]; intros l2 H1 H2 Hp.
  - apply Permutation_nil in Hp. now subst.
  - destruct l2 as [|b l2].
    + apply Permutation_sym, Permutation_nil in Hp. discriminate.
    + apply StronglySorted_inv in H1 as [H1 Ha].
      apply StronglySorted_inv in H2 as [H2 Hb].
      assert (Hab : a = b).
      { rewrite Forall_forall in Ha, Hb.
        assert (Hin_a : In a (b :: l2))
          by (apply (Permutation_in _ Hp); now left).
        assert (Hin_b : In b (a :: l1))
          by (apply (Permutation_in _ (Permutation_sym Hp)); now left).
        destruct Hin_a as [-> | Hin_a]; [reflexivity |].
        destruct Hin_b as [-> | Hin_b]; [reflexivity |].
        apply String.leb_antisym; [now apply Ha | now apply Hb]. }
      subst b. f_equal. apply IH; try assumption.
      now apply Permutation_cons_inv in Hp.
Qed.

Lemma sorted_strongly l : StronglySorted le_name (sorted l).
Proof.
  apply Sorted_StronglySorted; [exact le_name_trans | apply sorted_sorted].
Qed.

(** [get_images] does not depend on the order in which [os.listdir]
    enumerates the folder. *)
Theorem get_images_order_independent listdir listdir' folder :
  Permutation (listdir folder) (listdir' folder) ->
  get_images listdir folder = get_images listdir' folder.
Proof.
  intros Hp. unfold get_images.
  pose proof (filter_perm is_image _ _ Hp) as Hf.
  rewrite (Permutation_length Hf).
  destruct (_ <? 2)%nat; [reflexivity |].
  do 2 f_equal. apply sorted_perm_unique; try apply sorted_strongly.
  rewrite <- !sorted_perm. exact Hf.
Qed.

Lemma lower_app a b : lower (a ++ b) = lower a ++ lower b.
Proof. induction a as [|c a IH]; simpl; [reflexivity | now rewrite IH]. Qed.

Lemma endswith_app a b suffix :
  endswith b suffix = true -> endswith (a ++ b) suffix = true.
Proof.
  rewrite !endswith_iff. intros [p ->]. exists (a ++ p).
  now rewrite AssemblerFacts.append_assoc.
Qed.

Lemma os_path_join_tail a b : exists p, os_path_join a b = p ++ b.
Proof.
  unfold os_path_join. destruct (startswith b "/").
  - now exists "".
  - destruct (String.eqb a "" || endswith a "/").
    + now exists a.
    + exists (a ++ "/"). now rewrite AssemblerFacts.append_assoc.
Qed.

Lemma is_image_join folder f :
  is_image f = true -> is_image (os_path_join folder f) = true.
Proof.
  destruct (os_path_join_tail folder f) as [p ->].
  unfold is_image, endswith_any. rewrite !existsb_exists.
  intros (ext & Hin & He). exists ext. split; [exact Hin |].
  rewrite lower_app. now apply endswith_app.
Qed.

Lemma is_transition_join folder f :
  is_transition f = true -> is_transition (os_path_join folder f) = true.
Proof.
  destruct (os_path_join_tail folder f) as [p ->].
  unfold is_transition. rewrite lower_app. apply endswith_app.
Qed.

(** Every path handed on by the two discovery functions still passes the
    filter that selected its name. *)
Theorem discovered_paths_keep_extension listdir folder :
  (forall paths, get_images listdir folder = inr paths ->
                 forallb is_image paths = true)
  /\ (forall paths, get_transitions listdir folder = inr paths ->
                    forallb is_transition paths = true).
Proof.
  split; intros paths H; apply forallb_forall; intros p Hp.
  - unfold get_images in H. destruct (_ <? 2)%nat; [discriminate |].
    injection H as <-. apply in_map_iff in Hp as (f & <- & Hf).
    apply is_image_join.
    apply (Permutation_in _ (Permutation_sym (sorted_perm _))) in Hf.
    now apply filter_In in Hf.
  - unfold get_transitions in H. destruct (_ =? 0)%nat; [discriminate |].
    injection H as <-. apply in_map_iff in Hp as (f & <- & Hf).
    apply is_transition_join. now apply filter_In in Hf.
Qed.

End CatalogMore.

(** ** Transition player and sequencer, continued *)
Module PlayerMore.
Import Player PlayerFacts Observations.
Local Open Scope Q_scope.

Lemma Qltb_lt x y : Qltb x y = true <-> x < y.
Proof.
  unfold Qltb. rewrite Qlt_alt. destruct (x ?= y); split; congruence.
Qed.

Lemma Qltb_ge x y : Qltb x y = false <-> y <= x.
Proof.
  split.
  - intros H. apply Qnot_lt_le. intros Hlt. apply Qltb_lt in Hlt. congruence.
  - intros H. destruct (Qltb x y) eqn:E; [| reflexivity].
    apply Qltb_lt in E. exfalso. apply (Qle_not_lt _ _ H E).
Qed.

Section Phases.

Variable env : Env.

Lemma hold_loop_frames fuel start_time C : forall W W',
  hold_loop env fuel start_time C W = Ok tt W' ->
  exists k,
    out W' = (out W ++ hold_frames C k)%list
    /\ polls W' = (polls W + k)%nat
    /\ ticks W' = (ticks W + S k)%nat
    /\ (forall i, (i < k)%nat ->
          clock env (ticks W + i) - start_time < pause_duration
          /\ close_flag env (polls W + i) = false)
    /\ (pause_duration <= clock env (ticks W + k) - start_time
        \/ close_flag env (polls W + k) = true).
Proof.
  induction fuel as [|fuel IH]; intros W W'; cbn [hold_loop];
    [discriminate |].
  cbn [time_time]. unfold window_should_close. cbn [polls].
  destruct (Qltb (clock env (ticks W) - start_time) pause_duration) eqn:Et;
    cbn [andb].
  - destruct (close_flag env (polls W)) eqn:Ec; cbn [negb].
    + intros [= <-]. exists 0%nat. cbn. rewrite app_nil_r, !Nat.add_0_r.
      repeat split; try lia. now right.
    + intros H. apply IH in H as (k & Ho & Hp & Ht & Hall & Hend).
      cbn in Ho, Hp, Ht, Hall, Hend. exists (S k).
      split; [rewrite Ho, <- app_assoc; reflexivity |].
      split; [lia |]. split; [lia |]. split.
      * intros [|i] Hi.
        -- rewrite !Nat.add_0_r. split; [now apply Qltb_lt | exact Ec].
        -- rewrite <- !Nat.add_succ_comm. apply Hall. lia.
      * now rewrite <- !Nat.add_succ_comm.
  - intros [= <-]. exists 0%nat. cbn. rewrite app_nil_r, !Nat.add_0_r.
    repeat split; try lia. left. now apply Qltb_ge.
Qed.

(** The hold phase draws only frames at progress 0 with the program and the
    two textures of the cycle; each was drawn while less than
    [pause_duration] had passed since the entry reading and the window was
    open, and the phase was left on the first reading at which the pause had
    passed or the window was closing.  One frame costs one clock reading and
    one event poll. *)
Theorem hold_phase_frames fuel C W W' :
  hold_phase env fuel C W = Ok tt W' ->
  let start_time := clock env (ticks W) in
  exists k,
    out W' = (out W ++ hold_frames C k)%list
    /\ polls W' = (polls W + k)%nat
    /\ ticks W' = (ticks W + k + 2)%nat
    /\ (forall i, (i < k)%nat ->
          clock env (S (ticks W) + i) - start_time < pause_duration
          /\ close_flag env (polls W + i) = false)
    /\ (pause_duration <= clock env (S (ticks W) + k) - start_time
        \/ close_flag env (polls W + k) = true).
Proof.
  unfold hold_phase. cbn [time_time]. intros H. cbv zeta.
  apply hold_loop_frames in H as (k & Ho & Hp & Ht & Hall & Hend).
  cbn in Ho, Hp, Ht, Hall, Hend. exists k.
  repeat split; try assumption; try lia; now apply Hall.
Qed.

(** A transition left while the window is open has run for at least
    [transition_duration], so the rate printed for it is at least the
    frame count over the time taken. *)
Theorem fps_overestimates fuel C W n W' :
  transition_phase env fuel C W = Ok n W' ->
  window_should_close env W' = false ->
  transition_duration <= time_taken env W W'
  /\ inject_Z (Z.of_nat n) / time_taken env W W'
     <= inject_Z (Z.of_nat n) / transition_duration.
Proof.
  intros H Hopen.
  apply transition_phase_ok in H as (Ht & _ & _ & _ & _ & Hend).
  destruct Hend as [Hclosed | (i & -> & Hi)]; [congruence |].
  assert (Hlast : (ticks W' - 1 = S (ticks W) + i)%nat) by lia.
  assert (Htd : transition_duration <= time_taken env W W').
  { unfold time_taken. rewrite Hlast.
    set (x := clock env (S (ticks W) + i) - clock env (ticks W)) in *.
    assert (Hx : 1 <= x / transition_duration).
    { rewrite <- Hi. unfold progress_at. apply Q.le_min_l. }
    apply (Qmult_le_compat_r _ _ transition_duration) in Hx;
      [| apply Qlt_le_weak, transition_duration_pos].
    rewrite Qmult_1_l, (Qmult_comm (x / _)), Qmult_div_r in Hx;
      [exact Hx | discriminate]. }
  split; [exact Htd |].
  set (q := inject_Z (Z.of_nat (S i))).
  assert (Hq : 0 <= q / transition_duration).
  { apply Qle_shift_div_l; [apply transition_duration_pos |].
    rewrite Qmult_0_l. unfold q, Qle; simpl. lia. }
  apply Qle_shift_div_r.
  - eapply Qlt_le_trans; [apply transition_duration_pos | exact Htd].
  - setoid_replace q with (q / transition_duration * transition_duration)
      at 1 by (rewrite Qmult_comm, Qmult_div_r; [reflexivity | discriminate]).
    rewrite !(Qmult_comm (q / transition_duration)).
    now apply Qmult_le_compat_r.
Qed.





End Phases.

Lemma track_app alive evs1 evs2 :
  track alive (evs1 ++ evs2) =
  match track alive evs1 with
  | Some alive' => track alive' evs2
  | None => None
  end.
Proof.
  revert alive. induction evs1 as [|e evs1 IH]; intros alive; simpl;
    [reflexivity |].
  destruct (track_step alive e); [apply IH | reflexivity].
Qed.

Lemma track_hold_frames alive C k :
  track alive (hold_frames C k) = Some alive.
Proof.
  unfold hold_frames. induction k as [|k IH]; simpl; [reflexivity | exact IH].
Qed.

Lemma track_transition_frames alive C frames :
  track alive (transition_frames C frames) = Some alive.
Proof.
  unfold transition_frames.
  induction frames as [|q l IH]; simpl; [reflexivity | exact IH].
Qed.

Lemma eqb_succ_l a : Nat.eqb (S a) a = false.
Proof. apply Nat.eqb_neq. lia. Qed.

Lemma eqb_succ_r a : Nat.eqb a (S a) = false.
Proof. apply Nat.eqb_neq. lia. Qed.

Ltac track_compute :=
  repeat (cbn [track track_step]; unfold track_create, track_release, is_alive;
          cbn [existsb obj_eqb orb filter negb];
          rewrite ?eqb_succ_l, ?eqb_succ_r, ?Nat.eqb_refl;
          cbn [existsb obj_eqb orb filter negb]).

Lemma track_create_trace a v f :
  track [] (create_trace a v f) = Some [Prog (S (S a))].
Proof. unfold create_trace. track_compute. reflexivity. Qed.

Lemma track_cycle_trace v f a C hold frames :
  program C = S (S a) ->
  track [] (cycle_trace v f a C hold frames) = Some [].
Proof.
  intros Hp. unfold cycle_trace. cbn [track track_step].
  rewrite track_app, track_create_trace. cbn [track track_step].
  rewrite track_app, track_hold_frames, track_app, track_transition_frames.
  rewrite Hp. track_compute. reflexivity.
Qed.

Section Runs.

Variable env : Env.
Variable textures : list nat.
Variable transition_paths : list string.
Variables vertex_src header_src footer_src : string.

Local Abbreviation prologue :=
  (cycle_prologue env textures transition_paths
                  vertex_src header_src footer_src).
Local Abbreviation body :=
  (cycle env textures transition_paths vertex_src header_src footer_src).
Local Abbreviation loop :=
  (main_loop env textures transition_paths vertex_src header_src footer_src).
Local Abbreviation cycles :=
  (after_cycles env textures transition_paths
                vertex_src header_src footer_src).
Local Abbreviation source_of path :=
  (Assembler.assemble header_src (read_text env path) footer_src).

Lemma create_program_cases v f W :
  match failure_log env v f with
  | None =>
      create_program env v f W =
      Ok (S (S (next_name W)))
         {| ticks := ticks W; polls := polls W;
            next_name := S (S (S (next_name W)));
            out := out W ++ create_trace (next_name W) v f |}
  | Some log =>
      exists evs,
        create_program env v f W =
        Raise (RuntimeError log)
              {| ticks := ticks W; polls := polls W;
                 next_name := next_name W + List.length evs;
                 out := out W ++ evs |}
        /\ (1 <= List.length evs <= 3)%nat
        /\ count is_create evs = List.length evs
        /\ count is_release evs = 0%nat
        /\ forallb inert evs = true
  end.
Proof.
  unfold failure_log, create_program, compile_shader, bind, emit, create_trace.
  destruct (compile_status env GL_VERTEX_SHADER v); simpl.
  - destruct (compile_status env GL_FRAGMENT_SHADER f); simpl.
    + destruct (link_status env v f); simpl.
      * rewrite <- !app_assoc. reflexivity.
      * eexists [_; _; _]. rewrite <- !app_assoc. simpl.
        rewrite !Nat.add_succ_r, Nat.add_0_r. repeat split; lia.
    + eexists [_; _]. rewrite <- !app_assoc. simpl.
      rewrite !Nat.add_succ_r, Nat.add_0_r. repeat split; lia.
  - eexists [_]. simpl. rewrite !Nat.add_succ_r, Nat.add_0_r.
    repeat split; lia.
Qed.

(** [create_program] has two outcomes.  When both stages compile and the
    link succeeds it returns the third of three fresh names, having logged
    the two compilations, the link and the release of both stages, and
    nothing else.  Otherwise it raises [RuntimeError] with the diagnostic of
    the first unsuccessful step after at most three calls, and releases
    nothing: the stages and the program created so far stay allocated. *)
Theorem create_program_outcome v f W :
  match failure_log env v f with
  | None =>
      create_program env v f W =
      Ok (S (S (next_name W)))
         {| ticks := ticks W; polls := polls W;
            next_name := S (S (S (next_name W)));
            out := out W ++ create_trace (next_name W) v f |}
  | Some log =>
      exists evs,
        create_program env v f W =
        Raise (RuntimeError log)
              {| ticks := ticks W; polls := polls W;
                 next_name := next_name W + List.length evs;
                 out := out W ++ evs |}
        /\ (1 <= List.length evs <= 3)%nat
        /\ count is_create evs = List.length evs
        /\ count is_release evs = 0%nat
        /\ forallb inert evs = true
  end.
Proof.
  unfold failure_log, create_program, compile_shader, bind, emit, create_trace.
  destruct (compile_status env GL_VERTEX_SHADER v); simpl.
  - destruct (compile_status env GL_FRAGMENT_SHADER f); simpl.
    + destruct (link_status env v f); simpl.
      * rewrite <- !app_assoc. reflexivity.
      * eexists [_; _; _]. rewrite <- !app_assoc. simpl.
        rewrite !Nat.add_succ_r, Nat.add_0_r. repeat split; lia.
    + eexists [_; _]. rewrite <- !app_assoc. simpl.
      rewrite !Nat.add_succ_r, Nat.add_0_r. repeat split; lia.
  - eexists [_]. simpl. rewrite !Nat.add_succ_r, Nat.add_0_r.
    repeat split; lia.
Qed.

Lemma count_app f evs1 evs2 :
  count f (evs1 ++ evs2) = (count f evs1 + count f evs2)%nat.
Proof. unfold count. now rewrite filter_app, length_app. Qed.

Lemma count_hold_frames f C k :
  count f (hold_frames C k)
  = (if f (GlDraw (program C) (tex1 C) (tex2 C) 0) then k else 0)%nat.
Proof.
  unfold count, hold_frames.
  induction k as [|k IH]; simpl; [now destruct (f _) |].
  destruct (f _); simpl; now rewrite IH.
Qed.

Lemma count_transition_frames g C frames :
  count g (transition_frames C frames)
  = List.length (filter (fun q => g (GlDraw (program C) (tex1 C) (tex2 C) q))
                        frames).
Proof.
  unfold count, transition_frames.
  induction frames as [|q l IH]; simpl; [reflexivity |].
  destruct (g _); simpl; now rewrite IH.
Qed.

Lemma filter_all {A} (l : list A) : filter (fun _ => true) l = l.
Proof. induction l as [|x l IH]; simpl; [reflexivity | now rewrite IH]. Qed.

Lemma filter_none {A} (l : list A) : filter (fun _ => false) l = [].
Proof. induction l as [|x l IH]; simpl; [reflexivity | exact IH]. Qed.

Lemma count_cycle_trace v f a C hold frames :
  count is_create (cycle_trace v f a C hold frames) = 3%nat
  /\ count is_release (cycle_trace v f a C hold frames) = 3%nat
  /\ count is_terminate (cycle_trace v f a C hold frames) = 0%nat
  /\ count is_draw (cycle_trace v f a C hold frames)
     = (hold + List.length frames)%nat.
Proof.
  assert (Happ : cycle_trace v f a C hold frames =
                 ((Print (fragment_path C) :: create_trace a v f)
                  ++ [GlUseProgram (program C)]
                  ++ hold_frames C hold
                  ++ transition_frames C frames
                  ++ [PrintFps (inject_Z (Z.of_nat (List.length frames))
                                / transition_duration);
                      GlDeleteProgram (program C)])%list).
  { reflexivity. }
  rewrite Happ, !count_app, !count_hold_frames, !count_transition_frames.
  simpl. rewrite filter_all, !filter_none.
  unfold count. simpl. repeat split; lia.
Qed.

Lemma in_range_nth L :
  in_range textures transition_paths L ->
  exists path, nth_error transition_paths (trans_index L) = Some path
               /\ In path transition_paths.
Proof.
  intros [_ Ht].
  destruct (nth_error transition_paths (trans_index L)) as [path|] eqn:E.
  - exists path. split; [reflexivity | now apply nth_error_In in E].
  - apply nth_error_None in E. lia.
Qed.

Lemma cycle_in_range fuel L W L2 W2 :
  in_range textures transition_paths L ->
  body fuel L W = Ok L2 W2 ->
  in_range textures transition_paths L2.
Proof.
  intros [Hi Ht] H.
  apply cycle_ok in H as (C & k & n & _ & _ & _ & _ & Hi2 & Ht2 & _).
  split; [rewrite Hi2 | rewrite Ht2]; apply Nat.mod_upper_bound; lia.
Qed.

Lemma after_cycles_unroll fuel : forall K L W,
  cycles (S K) fuel L W =
  if window_should_close env W then None
  else match body fuel L W with
       | Ok L1 W1 => cycles K fuel L1 W1
       | _ => None
       end.
Proof.
  induction K as [|K IH]; intros L W.
  - simpl. destruct (window_should_close env W); [reflexivity |].
    now destruct (body fuel L W).
  - change (cycles (S (S K)) fuel L W) with
      (match cycles (S K) fuel L W with
       | Some (L1, W1) =>
           if window_should_close env W1 then None
           else match body fuel L1 W1 with
                | Ok L2 W2 => Some (L2, W2)
                | _ => None
                end
       | None => None
       end).
    rewrite IH. destruct (window_should_close env W); [reflexivity |].
    destruct (body fuel L W) as [L1 W1 | |]; reflexivity.
Qed.

Lemma loop_ok_cycles fuel : forall n L W W',
  loop n fuel L W = Ok tt W' ->
  exists K L' Wk,
    cycles K fuel L W = Some (L', Wk)
    /\ window_should_close env Wk = true
    /\ W' = emit GlfwTerminate Wk.
Proof.
  induction n as [|n IH]; intros L W W'; simpl; [discriminate |].
  destruct (window_should_close env W) eqn:Ec.
  - intros [= <-]. now exists 0%nat, L, W.
  - destruct (body fuel L W) as [L1 W1 | |] eqn:E; simpl; try discriminate.
    intros H. apply IH in H as (K & L' & Wk & HK & Hclosed & ->).
    exists (S K), L', Wk. rewrite after_cycles_unroll, Ec, E.
    now repeat split.
Qed.


(** After [K] full cycles the run has created exactly [3 K] GL objects (two
    stages and one program per cycle) and released exactly as many, has
    not called [glfw.terminate], has consumed [3 K] names, and has polled
    the window events exactly once per frame drawn. *)
Theorem run_accounting K fuel L W L' W' :
  cycles K fuel L W = Some (L', W') ->
  exists evs,
    out W' = (out W ++ evs)%list
    /\ count is_create evs = (3 * K)%nat
    /\ count is_release evs = (3 * K)%nat
    /\ count is_terminate evs = 0%nat
    /\ next_name W' = (next_name W + 3 * K)%nat
    /\ polls W' = (polls W + count is_draw evs)%nat.
Proof.
  revert L' W'.
  induction K as [|K IH]; intros L' W'; simpl.
  - intros [= <- <-]. exists []. rewrite app_nil_r. cbn. repeat split; lia.
  - destruct (cycles K fuel L W) as [[L1 W1]|] eqn:E; [| discriminate].
    destruct (window_should_close env W1); [discriminate |].
    destruct (body fuel L1 W1) as [L2 W2 | |] eqn:Eb; try discriminate.
    intros [= <- <-].
    destruct (IH L1 W1 eq_refl) as (evs & Ho & Hc & Hr & Ht & Hn & Hp).
    apply cycle_ok in Eb
      as (C & k & n & _ & _ & _ & _ & _ & _ & Hn2 & Hp2 & Ho2).
    eexists (evs ++ _)%list.
    split; [rewrite Ho2, Ho, <- app_assoc; reflexivity |].
    rewrite !count_app.
    destruct (count_cycle_trace vertex_src
                (source_of (fragment_path C)) (next_name W1) C k
                (sampled env (clock env (ticks W1 + k + 2))
                         (ticks W1 + k + 3) n))
      as (Hc2 & Hr2 & Ht2 & Hd2).
    rewrite Hc2, Hr2, Ht2, Hd2, sampled_length. repeat split; lia.
Qed.

Lemma cycles_tracked fuel L W : forall K L' W',
  cycles K fuel L W = Some (L', W') ->
  exists evs,
    out W' = (out W ++ evs)%list
    /\ track [] evs = Some []
    /\ count is_create evs = (3 * K)%nat
    /\ count is_release evs = (3 * K)%nat
    /\ count is_terminate evs = 0%nat.
Proof.
  induction K as [|K IH]; intros L' W'; simpl.
  - intros [= <- <-]. exists []. rewrite app_nil_r. cbn. repeat split; lia.
  - destruct (cycles K fuel L W) as [[L1 W1]|] eqn:E; [| discriminate].
    destruct (window_should_close env W1); [discriminate |].
    destruct (body fuel L1 W1) as [L2 W2 | |] eqn:Eb; try discriminate.
    intros [= <- <-].
    destruct (IH L1 W1 eq_refl) as (evs & Ho & Htr & Hc & Hr & Ht).
    apply cycle_ok in Eb
      as (C & k & n & _ & _ & _ & Hprog & _ & _ & _ & _ & Ho2).
    eexists (evs ++ _)%list.
    split; [rewrite Ho2, Ho, <- app_assoc; reflexivity |].
    split; [rewrite track_app, Htr; now apply track_cycle_trace |].
    rewrite !count_app.
    destruct (count_cycle_trace vertex_src
                (source_of (fragment_path C)) (next_name W1) C k
                (sampled env (clock env (ticks W1 + k + 2))
                         (ticks W1 + k + 3) n))
      as (Hc2 & Hr2 & Ht2 & _).
    rewrite Hc2, Hr2, Ht2. repeat split; lia.
Qed.

Lemma create_program_leaks v f W log :
  failure_log env v f = Some log ->
  exists evs leaked,
    create_program env v f W =
    Raise (RuntimeError log)
          {| ticks := ticks W; polls := polls W;
             next_name := next_name W + List.length evs;
             out := out W ++ evs |}
    /\ track [] evs = Some leaked
    /\ (1 <= List.length leaked <= 3)%nat
    /\ count is_release evs = 0%nat
    /\ count is_terminate evs = 0%nat.
Proof.
  unfold failure_log, create_program, compile_shader, bind, emit.
  destruct (compile_status env GL_VERTEX_SHADER v); simpl.
  - destruct (compile_status env GL_FRAGMENT_SHADER f); simpl.
    + destruct (link_status env v f); simpl; [discriminate |].
      intros [= <-]. eexists [_; _; _], _. rewrite <- !app_assoc. simpl.
      rewrite !Nat.add_succ_r, Nat.add_0_r.
      split; [reflexivity |]. split; [track_compute; reflexivity |].
      cbn. repeat split; lia.
    + intros [= <-]. eexists [_; _], _. rewrite <- !app_assoc. simpl.
      rewrite !Nat.add_succ_r, Nat.add_0_r.
      split; [reflexivity |]. split; [track_compute; reflexivity |].
      cbn. repeat split; lia.
  - intros [= <-]. eexists [_], _. simpl.
    rewrite !Nat.add_succ_r, Nat.add_0_r.
    split; [reflexivity |]. split; [track_compute; reflexivity |].
    cbn. repeat split; lia.
Qed.

(** When the outer loop is left because the window is closing, every GL
    object created during the run has been released, each exactly once and
    after it was created, none is alive any more, and [glfw.terminate] is
    the last event, called once. *)
Theorem normal_exit_releases_everything n fuel L W W' :
  loop n fuel L W = Ok tt W' ->
  exists evs,
    out W' = (out W ++ evs ++ [GlfwTerminate])%list
    /\ track [] evs = Some []
    /\ count is_create evs = count is_release evs
    /\ count is_terminate evs = 0%nat.
Proof.
  intros H. apply loop_ok_cycles in H as (K & L' & Wk & HK & _ & ->).
  apply cycles_tracked in HK as (evs & Ho & Htr & Hc & Hr & Ht).
  exists evs. simpl. rewrite Ho, <- app_assoc.
  split; [reflexivity |]. split; [exact Htr |]. split; [lia | exact Ht].
Qed.

Lemma cycle_raise_leaks fuel L W e W' :
  in_range textures transition_paths L ->
  body fuel L W = Raise e W' ->
  exists path log evs leaked,
    nth_error transition_paths (trans_index L) = Some path
    /\ failure_log env vertex_src (source_of path) = Some log
    /\ e = RuntimeError log
    /\ out W' = (out W ++ Print path :: evs)%list
    /\ track [] evs = Some leaked
    /\ (1 <= List.length leaked <= 3)%nat
    /\ count is_release evs = 0%nat
    /\ count is_terminate evs = 0%nat.
Proof.
  intros Hr H. destruct (in_range_nth L Hr) as (path & Hpath & _).
  destruct Hr as [Hi Ht].
  destruct (prologue_reaches_create env textures transition_paths
              vertex_src header_src footer_src L W path Hi Hpath)
    as (t1 & t2 & Hpro).
  unfold cycle in H. rewrite Hpro in H.
  pose proof (create_program_cases vertex_src (source_of path)
                (emit (Print path) W)) as Hc.
  destruct (failure_log env vertex_src (source_of path)) as [log|] eqn:Efl.
  - clear Hc.
    destruct (create_program_leaks vertex_src (source_of path)
                (emit (Print path) W) log Efl)
      as (evs & leaked & Hc & Htr & Hlen & Hrel & Hterm).
    rewrite Hc in H. simpl in H. injection H as <- <-.
    exists path, log, evs, leaked. simpl. rewrite <- app_assoc.
    now repeat split.
  - rewrite Hc in H. cbn [bind fst snd] in H. exfalso.
    destruct (hold_phase env fuel _ _) as [[] Wh | eh Wh |] eqn:E2;
      cbn [bind] in H; try discriminate.
    + destruct (transition_phase env fuel _ Wh) as [n Wt | et Wt |] eqn:E3;
        cbn [bind] in H; try discriminate.
      * unfold cycle_epilogue, bind, lift, py_mod in H.
        destruct (List.length textures); [lia | discriminate].
      * unfold transition_phase in E3; simpl in E3.
        now apply transition_loop_no_raise in E3.
    + unfold hold_phase in E2; simpl in E2.
      now apply hold_loop_no_raise in E2.
Qed.

Lemma cycle_tracked fuel L W L2 W2 :
  body fuel L W = Ok L2 W2 ->
  exists evs,
    out W2 = (out W ++ evs)%list
    /\ track [] evs = Some []
    /\ count is_terminate evs = 0%nat.
Proof.
  intros H. apply cycle_ok in H
    as (C & k & n & _ & _ & _ & Hprog & _ & _ & _ & _ & Ho).
  eexists. split; [exact Ho |].
  split; [now apply track_cycle_trace |].
  apply count_cycle_trace.
Qed.






End Runs.

End PlayerMore.

(** ** The sequencer (C1) *)
Module SequencerFacts.
Import Player PlayerFacts Observations PlayerMore.
Local Open Scope Q_scope.

Section Rotation.

Variable env : Env.
Variable textures : list nat.
Variable transition_paths : list string.
Variables vertex_src header_src footer_src : string.

Local Abbreviation body :=
  (cycle env textures transition_paths vertex_src header_src footer_src).
Local Abbreviation cycles :=
  (after_cycles env textures transition_paths
                vertex_src header_src footer_src).
Local Abbreviation source_of path :=
  (Assembler.assemble header_src (read_text env path) footer_src).


End Rotation.

Import Scenario.


End SequencerFacts.

(** ** The further properties at work *)
Module FixtureFacts.
Import Player Observations Scenario Fixtures.
Local Open Scope Q_scope.

Lemma get_images_order_independent_witness :
  Catalog.get_images names "oms-images"
  = Catalog.get_images names_reordered "oms-images".
Proof.
  apply CatalogMore.get_images_order_independent.
  exact (Permutation_rev (names "oms-images")).
Defined.

Lemma hold_phase_frames_witness :
  exists k W',
    hold_phase (driver 4 100 []) 10 first_cycle initial_world = Ok tt W'
    /\ out W' = hold_frames first_cycle k
    /\ polls W' = k.
Proof.
  edestruct (PlayerMore.hold_phase_frames (driver 4 100 []) 10 first_cycle
                                          initial_world)
    as (k & Ho & Hp & _).
  - vm_compute. reflexivity.
  - exists k. eexists. split; [vm_compute; reflexivity |].
    split; [exact Ho | exact Hp].
Defined.

Lemma fps_overestimates_witness :
  exists W',
    transition_phase slow_env 5 first_cycle initial_world = Ok 1%nat W'
    /\ transition_duration <= time_taken slow_env initial_world W'.
Proof.
  eexists. split; [vm_compute; reflexivity |].
  refine (proj1 (PlayerMore.fps_overestimates slow_env 5 first_cycle
                   initial_world 1 _ _ _)).
  - vm_compute. reflexivity.
  - reflexivity.
Defined.

Lemma initial_locals_in_range :
  in_range textures transition_paths initial_locals.
Proof. split; simpl; lia. Qed.

Lemma run_accounting_witness :
  exists L' W' evs,
    after_cycles env textures transition_paths
                 vertex_src header_src footer_src 3 10
                 initial_locals initial_world = Some (L', W')
    /\ out W' = evs
    /\ count is_create evs = 9%nat
    /\ count is_release evs = 9%nat
    /\ polls W' = count is_draw evs.
Proof.
  edestruct (PlayerMore.run_accounting
               env textures transition_paths
               vertex_src header_src footer_src 3 10
               initial_locals initial_world)
    as (evs & Ho & Hc & Hr & _ & _ & Hp).
  - vm_compute. reflexivity.
  - do 2 eexists. exists evs. split; [vm_compute; reflexivity |].
    split; [exact Ho |]. split; [exact Hc |]. split; [exact Hr | exact Hp].
Defined.

Lemma normal_exit_releases_everything_witness :
  exists W' evs,
    main_loop env textures transition_paths vertex_src header_src footer_src
              10 10 initial_locals initial_world = Ok tt W'
    /\ out W' = (evs ++ [GlfwTerminate])%list
    /\ track [] evs = Some [].
Proof.
  edestruct (PlayerMore.normal_exit_releases_everything
               env textures transition_paths
               vertex_src header_src footer_src 10 10
               initial_locals initial_world)
    as (evs & Ho & Htr & _).
  - vm_compute. reflexivity.
  - eexists. exists evs. split; [vm_compute; reflexivity |].
    split; [exact Ho | exact Htr].
Defined.



End FixtureFacts.

(** ** The whole of [main] *)
Module StartupFacts.
Import Player PlayerFacts Observations PlayerMore Startup.

Section Loop.

Variable host : Host.
Variable env : Env.
Variable textures : list nat.
Variable transition_paths : list string.
Variables vertex_src header_src footer_src : string.

Local Abbreviation env' := (reading host env).
Local Abbreviation body :=
  (Startup.cycle host env textures transition_paths
                 vertex_src header_src footer_src).
Local Abbreviation loop :=
  (Startup.main_loop host env textures transition_paths
                     vertex_src header_src footer_src).
Local Abbreviation played :=
  (Player.cycle env' textures transition_paths
                vertex_src header_src footer_src).
Local Abbreviation played_loop :=
  (Player.main_loop env' textures transition_paths
                    vertex_src header_src footer_src).

(** One cycle on the host and one cycle of the player under [reading] end
    alike, unless the effect file cannot be read. *)
Lemma cycle_sim fuel L W :
  match body fuel L W with
  | Done L1 W1 => played fuel L W = Ok L1 W1
  | Fails (Raised e) W1 => played fuel L W = Raise e W1
  | Fails (LoadFailure path error) W1 =>
      nth_error transition_paths (trans_index L) = Some path
      /\ load_shader_source host path = Unreadable error
      /\ W1 = emit (Print path) W
  | Fails (PlainException _) _ => False
  | Unfinished => played fuel L W = OutOfFuel
  end.
Proof.
  unfold Startup.cycle, Player.cycle, Startup.cycle_prologue,
    Player.cycle_prologue.
  change (create_program env') with (create_program env).
  change (hold_phase env') with (hold_phase env).
  change (transition_phase env') with (transition_phase env).
  destruct (subscript textures (image_index L)) as [e1|t1];
    cbn [lift of_res and_then bind]; [reflexivity |].
  destruct (py_mod (image_index L + 1) (List.length textures)) as [e2|i2];
    cbn [lift of_res and_then bind]; [reflexivity |].
  destruct (subscript textures i2) as [e3|t2];
    cbn [lift of_res and_then bind]; [reflexivity |].
  destruct (subscript transition_paths (trans_index L)) as [e4|path] eqn:E4;
    cbn [lift of_res and_then bind]; [reflexivity |].
  destruct (py_mod (trans_index L + 1) (List.length transition_paths))
    as [e5|ti]; cbn [lift of_res and_then bind]; [reflexivity |].
  apply subscript_inr in E4. cbn [read_text reading].
  destruct (load_shader_source host path) as [text|error] eqn:El;
    cbn [of_load and_then].
  2:{ now repeat split. }
  destruct (create_program env vertex_src _ _) as [p Wp | e Wp |];
    cbn [of_res and_then bind fst snd]; try reflexivity.
  destruct (hold_phase env fuel _ _) as [[] Wh | e Wh |];
    cbn [of_res and_then bind]; try reflexivity.
  destruct (transition_phase env fuel _ _) as [n Wt | e Wt |];
    cbn [of_res and_then bind]; try reflexivity.
  destruct (cycle_epilogue textures _ _ n Wt) as [L2 W2 | e W2 |];
    cbn [of_res]; reflexivity.
Qed.

Lemma cycle_cases fuel L W :
  in_range textures transition_paths L ->
  exists path,
    nth_error transition_paths (trans_index L) = Some path
    /\ match load_shader_source host path with
       | Unreadable error =>
           body fuel L W = Fails (LoadFailure path error) (emit (Print path) W)
       | Loaded text =>
           read_text env' path = text
           /\ body fuel L W = of_res (played fuel L W)
       end.
Proof.
  intros Hr. destruct (in_range_nth _ _ L Hr) as (path & Hpath & _).
  exists path. split; [exact Hpath |].
  pose proof (cycle_sim fuel L W) as Hsim.
  destruct Hr as [Hi Ht].
  destruct (load_shader_source host path) as [text|error] eqn:El.
  - split; [cbn [read_text reading]; now rewrite El |].
    destruct (body fuel L W) as [L1 W1 | [e | msg | path' error'] W1 |];
      try (now rewrite Hsim); try contradiction.
    destruct Hsim as (Hp & Hl & _). congruence.
  - clear Hsim. unfold Startup.cycle, Startup.cycle_prologue.
    destruct (nth_error textures (image_index L)) as [t1'|] eqn:E1.
    2:{ apply nth_error_None in E1. lia. }
    destruct (List.length textures) as [|m] eqn:Em; [lia |].
    assert (Hlt : ((image_index L + 1) mod S m < List.length textures)%nat).
    { rewrite Em. apply Nat.mod_upper_bound. discriminate. }
    destruct (nth_error textures ((image_index L + 1) mod S m))
      as [t2'|] eqn:E2.
    2:{ apply nth_error_None in E2. lia. }
    destruct (List.length transition_paths) as [|k] eqn:Ek; [lia |].
    unfold subscript, py_mod, lift. rewrite E1.
    cbn [of_res and_then]. rewrite E2. cbn [of_res and_then].
    rewrite Hpath. cbn [of_res and_then]. rewrite El.
    cbn [of_load and_then]. reflexivity.
Qed.

Lemma loop_done : forall n fuel L W W',
  loop n fuel L W = Done tt W' -> played_loop n fuel L W = Ok tt W'.
Proof.
  induction n as [|n IH]; intros fuel L W W';
    cbn [Startup.main_loop Player.main_loop]; [discriminate |].
  change (window_should_close env' W) with (window_should_close env W).
  destruct (window_should_close env W); [now intros [= <-] |].
  pose proof (cycle_sim fuel L W) as Hsim.
  destruct (body fuel L W) as [L1 W1 | f W1 |]; cbn [and_then];
    try discriminate.
  rewrite Hsim. cbn [bind]. apply IH.
Qed.

(** On a host where every listed effect file can be read, the loop with
    the reads and the loop of the player end alike, with the same events. *)
Lemma loop_readable : forall n fuel L W,
  (forall path, In path transition_paths ->
                exists text, load_shader_source host path = Loaded text) ->
  loop n fuel L W = of_res (played_loop n fuel L W).
Proof.
  induction n as [|n IH]; intros fuel L W Hread;
    cbn [Startup.main_loop Player.main_loop]; [reflexivity |].
  change (window_should_close env' W) with (window_should_close env W).
  destruct (window_should_close env W); [reflexivity |].
  pose proof (cycle_sim fuel L W) as Hsim.
  destruct (body fuel L W) as [L1 W1 | [e | msg | path error] W1 |];
    try (rewrite Hsim; cbn [and_then bind of_res]; auto); try contradiction.
  destruct Hsim as (Hp & Hl & _). apply nth_error_In in Hp.
  destruct (Hread path Hp) as [text Ht]. congruence.
Qed.

(** How the loop on the host fails: after whole cycles, each of which
    released what it created, the effect of the cycle that fails is
    printed; then either its file cannot be read, or [create_program] fails
    on it and leaves what it created alive. *)
Lemma loop_failure : forall n fuel L W f W',
  in_range textures transition_paths L ->
  loop n fuel L W = Fails f W' ->
  exists evs path evs' leaked,
    out W' = (out W ++ evs ++ Print path :: evs')%list
    /\ track [] evs = Some []
    /\ count is_terminate evs = 0%nat
    /\ In path transition_paths
    /\ track [] evs' = Some leaked
    /\ count is_release evs' = 0%nat
    /\ count is_terminate evs' = 0%nat
    /\ ((exists error,
           load_shader_source host path = Unreadable error
           /\ f = LoadFailure path error /\ evs' = [])
        \/ (exists text log,
              load_shader_source host path = Loaded text
              /\ failure_log env vertex_src
                   (Assembler.assemble header_src text footer_src) = Some log
              /\ f = Raised (RuntimeError log)
              /\ (1 <= List.length leaked <= 3)%nat)).
Proof.
  induction n as [|n IH]; intros fuel L W f W' Hr;
    cbn [Startup.main_loop]; [discriminate |].
  destruct (window_should_close env W); [discriminate |].
  destruct (cycle_cases fuel L W Hr) as (path & Hpath & Hcase).
  destruct (load_shader_source host path) as [text|error] eqn:El.
  - destruct Hcase as [Hread Hb]. rewrite Hb.
    destruct (played fuel L W) as [L1 W1 | e W1 |] eqn:Ep;
      cbn [of_res and_then]; try discriminate.
    + intros H. apply IH in H; [| eapply cycle_in_range; eassumption].
      destruct H as (evs & path' & evs' & leaked & Ho & Htr & Hterm & Hin
                     & Htr' & Hrel' & Hterm' & Hf).
      apply cycle_tracked in Ep as (evs0 & Ho0 & Htr0 & Hterm0).
      exists (evs0 ++ evs)%list, path', evs', leaked.
      split; [rewrite Ho, Ho0, <- !app_assoc; reflexivity |].
      split; [now rewrite track_app, Htr0 |].
      split; [rewrite count_app; lia |].
      now repeat split.
    + intros [= <- <-].
      apply cycle_raise_leaks in Ep
        as (path' & log & evs' & leaked & Hp' & Hl & He & Ho & Htr & Hlen
            & Hrel & Hterm); [| exact Hr].
      assert (path' = path) by congruence. subst path'.
      exists [], path, evs', leaked. cbn [app].
      split; [exact Ho |]. split; [reflexivity |]. split; [reflexivity |].
      split; [eapply nth_error_In; exact Hpath |].
      split; [exact Htr |]. split; [exact Hrel |]. split; [exact Hterm |].
      right. exists text, log. rewrite Hread in Hl. subst e.
      split; [exact El |]. split; [exact Hl |].
      split; [reflexivity | exact Hlen].
  - rewrite Hcase. cbn [and_then]. intros [= <- <-].
    exists [], path, [], []. cbn.
    split; [reflexivity |]. split; [reflexivity |]. split; [reflexivity |].
    split; [eapply nth_error_In; exact Hpath |].
    split; [reflexivity |]. split; [reflexivity |]. split; [reflexivity |].
    left. exists error. now repeat split.
Qed.


(** When the render loop is left by an exception, [glfw.terminate] has not
    been called.  If an effect file could not be read, every GL object the
    loop created has been released; if [create_program] failed, the one to
    three objects it created for the failing effect stay alive, and those
    of the cycles before were released. *)
Theorem loop_failure_leaks n fuel L W f W' :
  in_range textures transition_paths L ->
  loop n fuel L W = Fails f W' ->
  exists evs leaked,
    out W' = (out W ++ evs)%list
    /\ count is_terminate evs = 0%nat
    /\ track [] evs = Some leaked
    /\ match f with
       | LoadFailure _ _ => leaked = []
       | _ => (1 <= List.length leaked <= 3)%nat
       end.
Proof.
  intros Hr H. apply loop_failure in H; [| exact Hr].
  destruct H as (evs & path & evs' & leaked & Ho & Htr & Hterm & _ & Htr'
                 & _ & Hterm' & Hf).
  exists (evs ++ Print path :: evs')%list, leaked.
  split; [exact Ho |].
  split.
  { change (Print path :: evs') with ([Print path] ++ evs')%list.
    rewrite !count_app, Hterm, Hterm'. reflexivity. }
  split; [rewrite track_app, Htr; exact Htr' |].
  destruct Hf as [(error & _ & -> & ->) | (text & log & _ & _ & -> & Hlen)].
  - cbn in Htr'. congruence.
  - exact Hlen.
Qed.

End Loop.

Section Main.

Variable host : Host.
Variable env : Env.

Lemma load_textures_cases : forall image_paths i W,
  match load_textures host i image_paths W with
  | Done names W' =>
      W' = W
      /\ List.length names = List.length image_paths
      /\ forall path, In path image_paths ->
                      exists picture, open_image host path = Loaded picture
  | Fails f W' =>
      W' = W
      /\ exists path error,
          In path image_paths
          /\ open_image host path = Unreadable error
          /\ f = LoadFailure path error
  | Unfinished => False
  end.
Proof.
  induction image_paths as [|p rest IH]; intros i W; cbn [load_textures].
  - repeat split. intros path [].
  - destruct (open_image host p) as [picture|error] eqn:Ep;
      cbn [of_load and_then].
    + specialize (IH (S i) W).
      destruct (load_textures host (S i) rest W) as [names W' | f W' |];
        cbn [and_then].
      * destruct IH as (-> & Hlen & Hall). split; [reflexivity |].
        split; [cbn; now rewrite Hlen |].
        intros path [<- | Hin]; [now exists picture | now apply Hall].
      * destruct IH as (-> & path & error & Hin & Hopen & ->).
        split; [reflexivity |]. exists path, error.
        split; [now right | now split].
      * exact IH.
    + split; [reflexivity |]. exists p, error. split; [now left | now split].
Qed.




(** When [main] returns, every start-up check had passed, the three fixed
    sources and every discovered image could be read, the render loop was
    left because the window was closing, every GL object created in the
    loop was released, once and after its creation, and [glfw.terminate]
    was called once, last. *)
Theorem main_returned n fuel W :
  main host env n fuel = Done tt W ->
  ready host
  /\ (forall path, In path [vertex_path; header_path; footer_path] ->
        exists text, load_shader_source host path = Loaded text)
  /\ (forall paths path,
        Catalog.get_images (listdir host) image_folder = inr paths ->
        In path paths ->
        exists picture, open_image host path = Loaded picture)
  /\ window_should_close env W = true
  /\ exists evs,
      out W = (evs ++ [GlfwTerminate])%list
      /\ track [] evs = Some []
      /\ count is_terminate evs = 0%nat.
Proof.
  unfold main, ready.
  destruct (isdir host image_folder); cbn [negb]; [| discriminate].
  destruct (isdir host shader_folder); cbn [negb]; [| discriminate].
  destruct (isdir host source_folder); cbn [negb]; [| discriminate].
  destruct (Catalog.get_images (listdir host) image_folder)
    as [ei | image_paths] eqn:Ei; cbn [lift of_res and_then];
    [discriminate |].
  destruct (Catalog.get_transitions (listdir host) shader_folder)
    as [et | transition_paths] eqn:Et; cbn [lift of_res and_then];
    [discriminate |].
  destruct (load_shader_source host vertex_path) as [vertex_src|] eqn:Ev;
    cbn [of_load and_then]; [| discriminate].
  destruct (load_shader_source host header_path) as [header_src|] eqn:Eh;
    cbn [of_load and_then]; [| discriminate].
  destruct (load_shader_source host footer_path) as [footer_src|] eqn:Ef;
    cbn [of_load and_then]; [| discriminate].
  destruct (glfw_init host); cbn [negb]; [| discriminate].
  destruct (create_window host); cbn [negb]; [| discriminate].
  pose proof (load_textures_cases image_paths 0 initial_world) as Hload.
  destruct (load_textures host 0 image_paths initial_world)
    as [textures W0 | f0 W0 |]; cbn [and_then]; try discriminate.
  destruct Hload as (-> & Hlen & Hall). intros H.
  split.
  { repeat split.
    - unfold Catalog.get_images in Ei.
      destruct (Nat.ltb_spec
                  (List.length (filter Catalog.is_image
                                       (listdir host image_folder))) 2);
        [discriminate | assumption].
    - unfold Catalog.get_transitions in Et.
      destruct (Nat.eqb_spec
                  (List.length (filter Catalog.is_transition
                                       (listdir host shader_folder))) 0);
        [discriminate | lia]. }
  split.
  { intros path [<- | [<- | [<- | []]]]; eauto. }
  split.
  { intros paths path [= <-]. apply Hall. }
  apply loop_done in H. apply loop_ok_cycles in H
    as (K & L' & Wk & HK & Hclosed & ->).
  split; [exact Hclosed |].
  apply cycles_tracked in HK as (evs & Ho & Htr & _ & _ & Hterm).
  exists evs. cbn [out emit]. rewrite Ho. now repeat split.
Qed.

End Main.

End StartupFacts.

Module StartupFixtureFacts.
Import Player Observations Startup StartupFixtures.

Example main_window_failure :
  main {| isdir := fun _ => true; listdir := Scenario.names;
          load_shader_source := load_shader_source good_host;
          open_image := open_image good_host;
          glfw_init := true; create_window := false;
          gen_texture := fun i => i |} Scenario.env 10 10
  = Fails (PlainException "glfw window can not be created")
          (emit GlfwTerminate initial_world).
Proof. reflexivity. Qed.


Lemma loop_failure_leaks_witness :
  exists f W' evs leaked,
    main_loop good_host Scenario.broken_env
              Scenario.textures Scenario.transition_paths
              Scenario.vertex_src Scenario.header_src Scenario.footer_src
              1 5 initial_locals initial_world = Fails f W'
    /\ out W' = evs
    /\ count is_terminate evs = 0%nat
    /\ track [] evs = Some leaked.
Proof.
  edestruct (StartupFacts.loop_failure_leaks
               good_host Scenario.broken_env
               Scenario.textures Scenario.transition_paths
               Scenario.vertex_src Scenario.header_src Scenario.footer_src
               1 5 initial_locals initial_world)
    as (evs & leaked & Ho & Ht & Htr & _).
  - exact FixtureFacts.initial_locals_in_range.
  - vm_compute. reflexivity.
  - do 2 eexists. exists evs, leaked. split; [vm_compute; reflexivity |].
    split; [exact Ho |]. split; [exact Ht | exact Htr].
Defined.


Lemma main_returned_witness :
  exists W,
    main good_host Scenario.env 10 10 = Done tt W /\ ready good_host.
Proof.
  eexists. split; [vm_compute; reflexivity |].
  refine (proj1 (StartupFacts.main_returned good_host Scenario.env 10 10 _ _)).
  vm_compute. reflexivity.
Defined.

End StartupFixtureFacts.

(** ** The GL calls *)
Module GlFacts.
Import Gl.
Local Open Scope Q_scope.

Lemma run_app s calls1 calls2 :
  run s (calls1 ++ calls2) = run (run s calls1) calls2.
Proof. apply fold_left_app. Qed.

Lemma uniform1f_in_use s p name v :
  current_program s = p ->
  step s (glUniform1f (p, name) v) =
  {| current_program := current_program s;
     active_unit := active_unit s; bound := bound s;
     uniform_f := upd2 (uniform_f s) p name v;
     uniform_i := uniform_i s; textures := textures s;
     back := back s; shown := shown s; polled := polled s |}.
Proof. intros <-. cbn [step]. now rewrite Nat.eqb_refl. Qed.

Lemma uniform1i_in_use s p name v :
  current_program s = p ->
  step s (glUniform1i (p, name) v) =
  {| current_program := current_program s;
     active_unit := active_unit s; bound := bound s;
     uniform_f := uniform_f s;
     uniform_i := upd2 (uniform_i s) p name v;
     textures := textures s;
     back := back s; shown := shown s; polled := polled s |}.
Proof. intros <-. cbn [step]. now rewrite Nat.eqb_refl. Qed.

Lemma upd2_same {A} (f : nat -> string -> A) k name v :
  upd2 f k name v k name = v.
Proof. unfold upd2. now rewrite Nat.eqb_refl, String.eqb_refl. Qed.

Lemma draw_transition_run s p t1 t2 q :
  uniform_i s p "from" = 0%nat ->
  uniform_i s p "to" = 1%nat ->
  shown (run s (draw_transition p t1 t2 q))
  = (shown s ++ [Some (frame p t1 t2 q)])%list
  /\ polled (run s (draw_transition p t1 t2 q)) = S (polled s)
  /\ uniform_i (run s (draw_transition p t1 t2 q)) = uniform_i s
  /\ textures (run s (draw_transition p t1 t2 q)) = textures s
  /\ current_program (run s (draw_transition p t1 t2 q)) = p
  /\ active_unit (run s (draw_transition p t1 t2 q)) = 1%nat.
Proof.
  intros Hfrom Hto. unfold run, draw_transition. cbn [fold_left].
  rewrite (uniform1f_in_use (step (step s glClear) (glUseProgram p)))
    by reflexivity.
  repeat split; try reflexivity.
  cbn [shown back step current_program uniform_i uniform_f bound
       active_unit].
  rewrite Hfrom, Hto, upd2_same. reflexivity.
Qed.

Lemma use_program_run s p :
  uniform_i (run s (use_program p)) p "from" = 0%nat
  /\ uniform_i (run s (use_program p)) p "to" = 1%nat
  /\ shown (run s (use_program p)) = shown s
  /\ polled (run s (use_program p)) = polled s
  /\ textures (run s (use_program p)) = textures s.
Proof.
  unfold run, use_program. cbn [fold_left].
  rewrite (uniform1i_in_use _ p "from" 0%nat) by reflexivity.
  rewrite (uniform1i_in_use _ p "to" 1%nat) by reflexivity.
  cbn [uniform_i shown polled textures step].
  unfold upd2. rewrite Nat.eqb_refl. repeat split.
Qed.

Lemma frames_run p t1 t2 : forall qs s,
  uniform_i s p "from" = 0%nat ->
  uniform_i s p "to" = 1%nat ->
  shown (run s (flat_map (draw_transition p t1 t2) qs))
  = (shown s ++ map (fun q => Some (frame p t1 t2 q)) qs)%list
  /\ polled (run s (flat_map (draw_transition p t1 t2) qs))
     = (polled s + List.length qs)%nat
  /\ textures (run s (flat_map (draw_transition p t1 t2) qs)) = textures s.
Proof.
  induction qs as [|q qs IH]; intros s Hfrom Hto.
  - cbn. rewrite app_nil_r. repeat split; lia.
  - cbn [flat_map]. rewrite run_app.
    destruct (draw_transition_run s p t1 t2 q Hfrom Hto)
      as (Hs & Hp & Hu & Ht & _).
    destruct (IH (run s (draw_transition p t1 t2 q))) as (Hs' & Hp' & Ht').
    + now rewrite Hu.
    + now rewrite Hu.
    + rewrite Hs', Hp', Ht', Hs, Hp, Ht, <- app_assoc. cbn.
      repeat split; lia.
Qed.

Lemma cycle_calls_run s p t1 t2 qs :
  shown (run s (cycle_calls p t1 t2 qs))
  = (shown s ++ map (fun q => Some (frame p t1 t2 q)) qs)%list
  /\ polled (run s (cycle_calls p t1 t2 qs)) = (polled s + List.length qs)%nat
  /\ textures (run s (cycle_calls p t1 t2 qs)) = textures s.
Proof.
  unfold cycle_calls. rewrite run_app.
  destruct (use_program_run s p) as (Hfrom & Hto & Hs & Hp & Ht).
  destruct (frames_run p t1 t2 qs (run s (use_program p)) Hfrom Hto)
    as (Hs' & Hp' & Ht').
  now rewrite Hs', Hp', Ht', Hs, Hp, Ht.
Qed.

(** Whatever state GL was left in by the loading of the textures or by
    earlier cycles, the calls of one cycle present exactly one frame per
    progress value, each rendered by the cycle's program with its [from]
    sampler reading [tex1] and its [to] sampler reading [tex2] at that
    progress; the window events are polled once per frame and no texture
    object is changed. *)
Theorem cycle_frames s p t1 t2 qs :
  shown (run s (cycle_calls p t1 t2 qs))
  = (shown s ++ map (fun q => Some (frame p t1 t2 q)) qs)%list
  /\ polled (run s (cycle_calls p t1 t2 qs)) = (polled s + List.length qs)%nat
  /\ textures (run s (cycle_calls p t1 t2 qs)) = textures s.
Proof.
  unfold cycle_calls. rewrite run_app.
  destruct (use_program_run s p) as (Hfrom & Hto & Hs & Hp & Ht).
  destruct (frames_run p t1 t2 qs (run s (use_program p)) Hfrom Hto)
    as (Hs' & Hp' & Ht').
  now rewrite Hs', Hp', Ht', Hs, Hp, Ht.
Qed.

Lemma upd_same {A} (f : nat -> A) k v : upd f k v k = v.
Proof. unfold upd. now rewrite Nat.eqb_refl. Qed.

Lemma upd_other {A} (f : nat -> A) k v x : x <> k -> upd f k v x = f x.
Proof.
  intros H. unfold upd. destruct (Nat.eqb_spec x k); [contradiction | easy].
Qed.

Lemma round_up_aligned n :
  (n mod 4 = 0)%nat -> ((n + 4 - 1) / 4 * 4 = n)%nat.
Proof.
  intros H. pose proof (Nat.div_mod_eq n 4) as Hd. rewrite H in Hd.
  replace (n + 4 - 1)%nat with (3 + (n / 4) * 4)%nat by lia.
  rewrite Nat.div_add by lia.
  replace (3 / 4)%nat with 0%nat by reflexivity. lia.
Qed.

Lemma row_stride_aligned w :
  ((3 * w) mod unpack_alignment = 0)%nat -> row_stride w = (3 * w)%nat.
Proof. unfold row_stride, unpack_alignment. apply round_up_aligned. Qed.

Lemma texels_row row : texels (flat_map pixel_bytes row) = row.
Proof.
  induction row as [|[[r g] b] row IH]; [reflexivity |].
  cbn [flat_map pixel_bytes app texels]. now rewrite IH.
Qed.

Lemma length_row_bytes row :
  List.length (flat_map pixel_bytes row) = (3 * List.length row)%nat.
Proof.
  induction row as [|[[r g] b] row IH]; [reflexivity |].
  cbn [flat_map pixel_bytes app List.length]. rewrite IH. lia.
Qed.

Lemma unpack_np_array w : forall img,
  Forall (fun row => List.length row = w) img ->
  row_stride w = (3 * w)%nat ->
  unpack w (List.length img) (np_array img) = img.
Proof.
  induction img as [|row img IH]; intros Hrect Hs; [reflexivity |].
  apply Forall_cons_iff in Hrect as [Hrow Hrect].
  unfold np_array. cbn [flat_map List.length unpack].
  fold (np_array img). rewrite Hs.
  assert (Hlen : List.length (flat_map pixel_bytes row) = (3 * w)%nat)
    by (rewrite length_row_bytes, Hrow; reflexivity).
  rewrite <- Hlen at 1.
  rewrite firstn_app, firstn_all, Nat.sub_diag, firstn_O, app_nil_r.
  rewrite texels_row. f_equal.
  rewrite <- Hlen, skipn_app, skipn_all, Nat.sub_diag, skipn_O.
  cbn [app]. now apply IH.
Qed.

Lemma unpack_flipped picture :
  rows_aligned picture ->
  unpack (picture_width (flip_top_bottom picture))
         (picture_height (flip_top_bottom picture))
         (np_array (flip_top_bottom picture))
  = flip_top_bottom picture.
Proof.
  intros (w & Hrect & Hmod). unfold flip_top_bottom, picture_height.
  apply Forall_rev in Hrect.
  destruct (rev picture) as [|row img] eqn:E; [reflexivity |].
  assert (Hw : picture_width (row :: img) = w)
    by (now apply Forall_cons_iff in Hrect as [Hrow _]).
  rewrite Hw. apply unpack_np_array; [exact Hrect |].
  now apply row_stride_aligned.
Qed.

Lemma load_texture_run s picture tex :
  rows_aligned picture ->
  textures (run s (load_texture picture tex)) tex
  = {| width := picture_width (flip_top_bottom picture);
       height := picture_height (flip_top_bottom picture);
       rows := flip_top_bottom picture;
       min_filter := GL_LINEAR; mag_filter := GL_LINEAR;
       wrap_s := GL_CLAMP_TO_EDGE; wrap_t := GL_CLAMP_TO_EDGE |}
  /\ (forall other, other <> tex ->
        textures (run s (load_texture picture tex)) other = textures s other)
  /\ bound (run s (load_texture picture tex)) (active_unit s) = tex
  /\ active_unit (run s (load_texture picture tex)) = active_unit s
  /\ shown (run s (load_texture picture tex)) = shown s.
Proof.
  intros Hal. unfold run, load_texture. cbn [fold_left].
  cbn [step textures bound active_unit shown].
  rewrite !upd_same. cbn [set_param width height rows min_filter mag_filter
                          wrap_s wrap_t].
  rewrite (unpack_flipped picture Hal).
  repeat split.
  intros other Hne. now rewrite !upd_other by exact Hne.
Qed.

Lemma load_texture_elsewhere s picture tex other :
  other <> tex ->
  textures (run s (load_texture picture tex)) other = textures s other.
Proof.
  intros Hne. unfold run, load_texture. cbn [fold_left].
  cbn [step textures bound active_unit]. rewrite !upd_same.
  now rewrite !upd_other by exact Hne.
Qed.

Lemma load_texture_shown s picture tex :
  shown (run s (load_texture picture tex)) = shown s.
Proof. reflexivity. Qed.

(** For a picture whose rows all have the same number of pixels, a row of
    which ends on a multiple of the unpack alignment, [load_texture] leaves
    the texture it names holding the picture with its rows in reverse
    order, so that row [y] counted from the bottom of the texture is row
    [y] counted from the bottom of the picture, with the picture's height,
    linear filters and clamped wrapping; it leaves that texture bound to
    the active unit and changes no other texture. *)
Theorem load_texture_uploads s picture tex :
  rows_aligned picture ->
  rows (textures (run s (load_texture picture tex)) tex) = rev picture
  /\ height (textures (run s (load_texture picture tex)) tex)
     = List.length picture
  /\ (forall y, (y < List.length picture)%nat ->
        nth y (rows (textures (run s (load_texture picture tex)) tex)) []
        = nth (List.length picture - S y) picture [])
  /\ min_filter (textures (run s (load_texture picture tex)) tex) = GL_LINEAR
  /\ mag_filter (textures (run s (load_texture picture tex)) tex) = GL_LINEAR
  /\ wrap_s (textures (run s (load_texture picture tex)) tex)
     = GL_CLAMP_TO_EDGE
  /\ wrap_t (textures (run s (load_texture picture tex)) tex)
     = GL_CLAMP_TO_EDGE
  /\ bound (run s (load_texture picture tex)) (active_unit s) = tex
  /\ (forall other, other <> tex ->
        textures (run s (load_texture picture tex)) other = textures s other).
Proof.
  intros Hal.
  destruct (load_texture_run s picture tex Hal) as (Ht & Hother & Hb & _).
  rewrite Ht. cbn [rows height min_filter mag_filter wrap_s wrap_t].
  unfold flip_top_bottom, picture_height. rewrite length_rev.
  repeat split; try assumption.
  intros y Hy. now apply rev_nth.
Qed.

(** A picture two pixels wide has rows of six bytes, which GL looks for
    eight bytes apart: the second row of the texture is read from the
    wrong place and runs past the end of the array. *)
Example narrow_picture_is_skewed :
  rows (textures (run fresh_context (load_texture pennant 7)) 7)
  = [[blue; red]; [blue]]
  /\ rev pennant = [[blue; red]; [red; green]].
Proof. split; reflexivity. Qed.

Lemma length_unpack w : forall h data, List.length (unpack w h data) = h.
Proof.
  induction h as [|h IH]; intros data; cbn [unpack List.length];
    [reflexivity | now rewrite IH].
Qed.

Lemma unpack_nth w : forall h k data,
  (k < h)%nat ->
  nth k (unpack w h data) []
  = texels (firstn (3 * w) (skipn (k * row_stride w) data)).
Proof.
  induction h as [|h IH]; intros k data Hk; [lia |].
  cbn [unpack]. destruct k as [|k]; [reflexivity |].
  cbn [nth]. rewrite IH by lia. rewrite skipn_skipn.
  do 3 f_equal. simpl. lia.
Qed.

Lemma length_texels : forall n bytes,
  (List.length bytes <= n)%nat ->
  (3 * List.length (texels bytes) <= List.length bytes)%nat.
Proof.
  induction n as [|n IH]; intros bytes Hn.
  - destruct bytes; [simpl; lia | simpl in Hn; lia].
  - destruct bytes as [|r [|g [|b rest]]]; cbn [texels List.length]; try lia.
    cbn [List.length] in Hn.
    specialize (IH rest ltac:(lia)). lia.
Qed.

Lemma row_stride_padded w :
  ((3 * w) mod unpack_alignment <> 0)%nat -> (3 * w < row_stride w)%nat.
Proof.
  unfold row_stride, unpack_alignment. intros H.
  set (n := (3 * w)%nat) in *.
  pose proof (Nat.div_mod_eq (n + 4 - 1) 4) as Hd.
  pose proof (Nat.mod_upper_bound (n + 4 - 1) 4 ltac:(lia)) as Hr.
  assert (Hm : (((n + 4 - 1) / 4 * 4) mod 4 = 0)%nat)
    by apply Nat.Div0.mod_mul.
  destruct (Nat.eq_dec ((n + 4 - 1) / 4 * 4) n) as [E | E].
  - rewrite E in Hm. contradiction.
  - lia.
Qed.

Lemma length_np_array w : forall img,
  Forall (fun row => List.length row = w) img ->
  List.length (np_array img) = (3 * w * List.length img)%nat.
Proof.
  induction img as [|row img IH]; intros Hrect; [simpl; lia |].
  apply Forall_cons_iff in Hrect as [Hrow Hrect].
  unfold np_array. cbn [flat_map]. fold (np_array img).
  rewrite length_app, length_row_bytes, Hrow, (IH Hrect).
  cbn [List.length]. lia.
Qed.

(** With rows of [w] pixels where [3 w] is not a multiple of the unpack
    alignment, and at least two rows, [glTexImage2D] looks for the rows of
    the picture further apart than [np.array] laid them out: the texture
    gets the height of the picture, but the last row GL reads runs past the
    end of the array, so that fewer than [w] of its texels come from the
    picture. *)
Theorem misaligned_upload_overreads s picture tex w :
  Forall (fun row => List.length row = w) picture ->
  ((3 * w) mod unpack_alignment <> 0)%nat ->
  (2 <= List.length picture)%nat ->
  height (textures (run s (load_texture picture tex)) tex)
  = List.length picture
  /\ List.length (rows (textures (run s (load_texture picture tex)) tex))
     = List.length picture
  /\ (List.length
        (nth (List.length picture - 1)
             (rows (textures (run s (load_texture picture tex)) tex)) [])
      < w)%nat.
Proof.
  intros Hrect Hmod Hh.
  unfold run, load_texture. cbn [fold_left].
  cbn [step textures bound active_unit]. rewrite !upd_same.
  cbn [set_param width height rows min_filter mag_filter wrap_s wrap_t].
  unfold flip_top_bottom, picture_height. rewrite length_rev.
  split; [reflexivity |]. split; [apply length_unpack |].
  apply Forall_rev in Hrect.
  assert (Hw : picture_width (rev picture) = w).
  { destruct (rev picture) as [|row img] eqn:E.
    - apply (f_equal (@List.length _)) in E. rewrite length_rev in E.
      simpl in E. lia.
    - now apply Forall_cons_iff in Hrect as [Hrow _]. }
  rewrite Hw, unpack_nth by lia.
  set (bytes := firstn (3 * w)
                  (skipn ((List.length picture - 1) * row_stride w)
                         (np_array (rev picture)))).
  pose proof (length_texels (List.length bytes) bytes (le_n _)) as Ht.
  assert (Hb : (List.length bytes < 3 * w)%nat).
  { unfold bytes. rewrite length_firstn, length_skipn.
    rewrite (length_np_array w _ Hrect), length_rev.
    pose proof (row_stride_padded w Hmod) as Hs.
    apply Nat.min_lt_iff. right.
    destruct (List.length picture) as [|k]; [lia |].
    replace (S k - 1)%nat with k by lia.
    assert (Hk : (k * (3 * w + 1) <= k * row_stride w)%nat)
      by (apply Nat.mul_le_mono_l; lia).
    assert (Hw0 : (0 < 3 * w)%nat).
    { destruct w; [| lia]. exfalso. apply Hmod. reflexivity. }
    nia. }
  lia.
Qed.

Lemma load_textures_other : forall loads s other,
  ~ In other (map snd loads) ->
  textures (run s (load_textures loads)) other = textures s other.
Proof.
  induction loads as [|[picture tex] loads IH]; intros s other Hnot;
    [reflexivity |].
  cbn [load_textures]. rewrite run_app, IH.
  - apply load_texture_elsewhere. intros ->. apply Hnot. now left.
  - intros Hin. apply Hnot. now right.
Qed.

Lemma load_textures_run loads s picture tex :
  NoDup (map snd loads) ->
  In (picture, tex) loads ->
  rows_aligned picture ->
  textures (run s (load_textures loads)) tex
  = {| width := picture_width (flip_top_bottom picture);
       height := picture_height (flip_top_bottom picture);
       rows := flip_top_bottom picture;
       min_filter := GL_LINEAR; mag_filter := GL_LINEAR;
       wrap_s := GL_CLAMP_TO_EDGE; wrap_t := GL_CLAMP_TO_EDGE |}.
Proof.
  intros Hnd Hin Hal. revert s Hnd Hin.
  induction loads as [|[picture0 tex0] loads IH]; intros s Hnd Hin;
    [contradiction |].
  cbn [map snd] in Hnd. apply NoDup_cons_iff in Hnd as [Hfresh Hnd].
  cbn [load_textures]. rewrite run_app.
  destruct Hin as [[= -> ->] | Hin].
  - rewrite load_textures_other by exact Hfresh.
    now apply load_texture_run.
  - now apply IH.
Qed.

(** Loading a list of pictures under pairwise distinct names leaves each
    named texture whose picture has aligned rows holding that picture,
    flipped, with linear filters and clamped wrapping: the loads that
    follow do not disturb it, whatever their pictures. *)
Theorem load_textures_uploads loads s picture tex :
  NoDup (map snd loads) ->
  In (picture, tex) loads ->
  rows_aligned picture ->
  textures (run s (load_textures loads)) tex
  = {| width := picture_width (flip_top_bottom picture);
       height := picture_height (flip_top_bottom picture);
       rows := flip_top_bottom picture;
       min_filter := GL_LINEAR; mag_filter := GL_LINEAR;
       wrap_s := GL_CLAMP_TO_EDGE; wrap_t := GL_CLAMP_TO_EDGE |}.
Proof.
  intros Hnd Hin Hal. revert s Hnd Hin.
  induction loads as [|[picture0 tex0] loads IH]; intros s Hnd Hin;
    [contradiction |].
  cbn [map snd] in Hnd. apply NoDup_cons_iff in Hnd as [Hfresh Hnd].
  cbn [load_textures]. rewrite run_app.
  destruct Hin as [[= -> ->] | Hin].
  - rewrite load_textures_other by exact Hfresh.
    now apply load_texture_run.
  - now apply IH.
Qed.

Lemma load_textures_shown : forall loads s,
  shown (run s (load_textures loads)) = shown s.
Proof.
  induction loads as [|[picture tex] loads IH]; intros s; [reflexivity |].
  cbn [load_textures]. rewrite run_app, IH. apply load_texture_shown.
Qed.

(** Loading the textures and then running a cycle on two of them, both
    from pictures with aligned rows, presents the cycle's frames, sampling
    two textures that still hold the two pictures they were loaded with. *)
Theorem preload_then_cycle loads s p picture1 tex1 picture2 tex2 qs :
  NoDup (map snd loads) ->
  In (picture1, tex1) loads ->
  In (picture2, tex2) loads ->
  rows_aligned picture1 ->
  rows_aligned picture2 ->
  shown (run s (load_textures loads ++ cycle_calls p tex1 tex2 qs))
  = (shown s ++ map (fun q => Some (frame p tex1 tex2 q)) qs)%list
  /\ rows (textures
             (run s (load_textures loads ++ cycle_calls p tex1 tex2 qs)) tex1)
     = rev picture1
  /\ rows (textures
             (run s (load_textures loads ++ cycle_calls p tex1 tex2 qs)) tex2)
     = rev picture2.
Proof.
  intros Hnd H1 H2 Ha1 Ha2. rewrite run_app.
  destruct (cycle_calls_run (run s (load_textures loads)) p tex1 tex2 qs)
    as (Hs & _ & Ht).
  rewrite Hs, Ht, load_textures_shown.
  rewrite (load_textures_run loads s picture1 tex1 Hnd H1 Ha1).
  rewrite (load_textures_run loads s picture2 tex2 Hnd H2 Ha2).
  repeat split.
Qed.

Lemma two_names_distinct : NoDup (map snd [(flag, 7%nat); (lawn, 9%nat)]).
Proof. repeat constructor; simpl; intuition discriminate. Qed.

Lemma flag_aligned : rows_aligned flag.
Proof. exists 4%nat. split; [repeat constructor | reflexivity]. Qed.

Lemma lawn_aligned : rows_aligned lawn.
Proof. exists 4%nat. split; [repeat constructor | reflexivity]. Qed.

Lemma load_texture_uploads_witness :
  rows_aligned flag
  /\ rows (textures (run fresh_context (load_texture flag 7)) 7)
     = [[blue; blue; blue; blue]; [red; red; red; red]].
Proof.
  split; [exact flag_aligned |].
  exact (proj1 (load_texture_uploads fresh_context flag 7 flag_aligned)).
Defined.

Lemma pennant_rows : Forall (fun row => List.length row = 2%nat) pennant.
Proof. repeat constructor. Qed.

Lemma misaligned_upload_overreads_witness :
  (List.length
     (nth 1 (rows (textures (run fresh_context (load_texture pennant 7)) 7))
          []) < 2)%nat.
Proof.
  refine (proj2 (proj2 (misaligned_upload_overreads
                          fresh_context pennant 7 2 pennant_rows _ _))).
  - vm_compute. discriminate.
  - vm_compute. lia.
Defined.

Lemma load_textures_uploads_witness :
  rows (textures (run fresh_context
                      (load_textures [(flag, 7%nat); (lawn, 9%nat)])) 7)
  = [[blue; blue; blue; blue]; [red; red; red; red]].
Proof.
  rewrite (load_textures_uploads [(flag, 7%nat); (lawn, 9%nat)]
                                 fresh_context flag 7 two_names_distinct).
  - reflexivity.
  - now left.
  - exact flag_aligned.
Defined.

Lemma preload_then_cycle_witness :
  shown (run fresh_context
             (load_textures [(flag, 7%nat); (lawn, 9%nat)]
              ++ cycle_calls 3 7 9 [0; 1 # 2; 1]))
  = [Some (frame 3 7 9 0); Some (frame 3 7 9 (1 # 2)); Some (frame 3 7 9 1)].
Proof.
  refine (proj1 (preload_then_cycle [(flag, 7%nat); (lawn, 9%nat)]
                   fresh_context 3 flag 7 lawn 9 [0; 1 # 2; 1]
                   two_names_distinct _ _ flag_aligned lawn_aligned)).
  - now left.
  - right. now left.
Defined.

End GlFacts.

(** ** Asset catalog, bounds and case *)
Module CatalogLast.
Import Catalog CatalogFacts.

Lemma small_of_lower c d :
  small_of c d = true -> lower_char c = d /\ lower_char d = d.
Proof.
  unfold small_of. intros H. apply andb_true_iff in H as [Hc Hd].
  apply Nat.eqb_eq in Hd. rewrite <- (ascii_nat_embedding d), Hd.
  clear Hd d. revert Hc.
  destruct c as [[] [] [] [] [] [] [] []]; intros Hc;
    try discriminate Hc; split; reflexivity.
Qed.

Lemma same_letter_lower c d :
  same_letter c d = true -> lower_char c = lower_char d.
Proof.
  unfold same_letter. intros H.
  apply orb_true_iff in H as [H | H]; [apply orb_true_iff in H as [H | H] |].
  - apply Ascii.eqb_eq in H. now subst.
  - apply small_of_lower in H as [H1 H2]. congruence.
  - apply small_of_lower in H as [H1 H2]. congruence.
Qed.

Lemma same_up_to_case_lower : forall f g,
  same_up_to_case f g = true -> lower f = lower g.
Proof.
  induction f as [|c f IH]; intros [|d g]; cbn [same_up_to_case lower];
    try discriminate; [reflexivity |].
  intros H. apply andb_true_iff in H as [Hc Hf].
  now rewrite (same_letter_lower c d Hc), (IH g Hf).
Qed.

Lemma lower_ext ext : In ext img_exts -> lower ext = ext.
Proof.
  intros H. repeat (destruct H as [<- | H]; [reflexivity |]). contradiction.
Qed.

Lemma endswith_refl s : endswith s s = true.
Proof. apply endswith_iff. now exists "". Qed.

(** Both filters ignore the case of letters: two names that differ only in
    the case of ASCII letters are classified alike, so a name that ends
    with one of the listed suffixes written in any mix of capital and small
    letters is accepted, although the code lists the suffixes in small
    letters only. *)
Theorem filters_ignore_case f g :
  same_up_to_case f g = true ->
  is_image f = is_image g
  /\ is_transition f = is_transition g
  /\ (forall stem, In g img_exts -> is_image (stem ++ f) = true)
  /\ (forall stem, g = ".glsl" -> is_transition (stem ++ f) = true).
Proof.
  intros H. apply same_up_to_case_lower in H.
  unfold is_image, is_transition. rewrite H. repeat split.
  - intros stem Hin. unfold endswith_any. apply existsb_exists.
    exists g. split; [exact Hin |].
    rewrite CatalogMore.lower_app, H, (lower_ext g Hin).
    apply CatalogMore.endswith_app, endswith_refl.
  - intros stem ->. rewrite CatalogMore.lower_app, H.
    apply CatalogMore.endswith_app. reflexivity.
Qed.

(** What the discovery functions return on success satisfies the bounds the
    render loop relies on: at least two image paths, one per matching name,
    and at least one effect path, one per matching name. *)
Theorem discovery_establishes_bounds listdir folder :
  (forall paths, get_images listdir folder = inr paths ->
                 (2 <= List.length paths)%nat
                 /\ List.length paths
                    = List.length (filter is_image (listdir folder)))
  /\ (forall paths, get_transitions listdir folder = inr paths ->
                    (1 <= List.length paths)%nat
                    /\ List.length paths
                       = List.length (filter is_transition (listdir folder))).
Proof.
  split; intros paths H.
  - split; [now apply get_images_at_least_two in H |].
    unfold get_images in H. destruct (_ <? 2)%nat; [discriminate |].
    injection H as <-. rewrite length_map.
    now rewrite <- (Permutation_length (sorted_perm _)).
  - split; [now apply get_transitions_at_least_one in H |].
    unfold get_transitions in H. destruct (_ =? 0)%nat; [discriminate |].
    injection H as <-. now rewrite length_map.
Qed.

End CatalogLast.

(** ** Sequencer, chaining and period *)
Module PlayerLast.
Import Player PlayerFacts Observations PlayerMore.
Local Open Scope Q_scope.

Section Runs.

Variable env : Env.
Variable textures : list nat.
Variable transition_paths : list string.
Variables vertex_src header_src footer_src : string.

Local Abbreviation prologue :=
  (cycle_prologue env textures transition_paths
                  vertex_src header_src footer_src).
Local Abbreviation body :=
  (cycle env textures transition_paths vertex_src header_src footer_src).
Local Abbreviation cycles :=
  (after_cycles env textures transition_paths
                vertex_src header_src footer_src).

(** A transition phase reports a frame count of zero exactly when the
    window was already closing on entry; entered with the window open it
    draws at least one frame. *)
Theorem no_frame_iff_closed_on_entry fuel C W n W' :
  transition_phase env fuel C W = Ok n W' ->
  (n = 0%nat <-> window_should_close env W = true).
Proof.
  unfold transition_phase. cbn [time_time].
  destruct fuel as [|fuel]; cbn [transition_loop]; [discriminate |].
  unfold window_should_close at 1. cbn [polls].
  fold (window_should_close env W).
  destruct (window_should_close env W).
  - intros [= <- _]. tauto.
  - cbn [time_time]. destruct (Qle_bool 1 _).
    + intros [= <- _]. split; discriminate.
    + intros H. apply transition_loop_ok in H as (m & -> & _).
      split; [lia | discriminate].
Qed.

(** Consecutive cycles are chained: the texture a cycle fades to is the
    texture the next cycle holds and fades from, and the next cycle takes
    the effect that follows in the list, wrapping at its end. *)
Theorem cycles_are_chained fuel L W L1 W1 La C Wa Lb C' Wb :
  body fuel L W = Ok L1 W1 ->
  prologue L W = Ok (La, C) Wa ->
  prologue L1 W1 = Ok (Lb, C') Wb ->
  tex1 C' = tex2 C
  /\ nth_error transition_paths
               ((trans_index L + 1) mod List.length transition_paths)
     = Some (fragment_path C').
Proof.
  intros Hb Hp Hp'.
  apply cycle_ok in Hb as (C0 & k & n & _ & _ & _ & _ & Hi & Ht & _).
  apply cycle_prologue_ok in Hp as (_ & H2 & _).
  apply cycle_prologue_ok in Hp' as (H1' & _ & H3' & _).
  rewrite Hi in H1'. rewrite Ht in H3'.
  split; [congruence | exact H3'].
Qed.

(** The show is periodic: after [M * N] further cycles, [M] textures and
    [N] effects, both indices are back where they were, so the same pair of
    images meets the same effect again. *)
Theorem show_repeats K fuel fuel' W0 L W L' W' :
  cycles K fuel initial_locals W0 = Some (L, W) ->
  cycles (K + List.length textures * List.length transition_paths) fuel'
         initial_locals W0 = Some (L', W') ->
  image_index L' = image_index L /\ trans_index L' = trans_index L.
Proof.
  intros H H'.
  apply after_cycles_indices in H as [Hi Ht].
  apply after_cycles_indices in H' as [Hi' Ht'].
  rewrite Hi, Ht, Hi', Ht'. split.
  - rewrite Nat.mul_comm. apply Nat.Div0.mod_add.
  - apply Nat.Div0.mod_add.
Qed.

End Runs.

End PlayerLast.

Module LastFacts.
Import Player Observations Scenario Fixtures.
Local Open Scope Q_scope.

Lemma filters_ignore_case_witness :
  Catalog.same_up_to_case ".JpG" ".jpg" = true
  /\ Catalog.is_image "photo.JpG" = true.
Proof.
  split; [reflexivity |].
  refine (proj1 (proj2 (proj2 (CatalogLast.filters_ignore_case
                                 ".JpG" ".jpg" eq_refl))) "photo" _).
  now left.
Defined.

Lemma no_frame_iff_closed_on_entry_witness :
  exists W',
    transition_phase env 10 first_cycle initial_world = Ok 3%nat W'
    /\ (3%nat = 0%nat <-> window_should_close env initial_world = true).
Proof.
  eexists. split; [vm_compute; reflexivity |].
  refine (PlayerLast.no_frame_iff_closed_on_entry env 10 first_cycle
            initial_world 3 _ _).
  vm_compute. reflexivity.
Defined.

Lemma cycles_are_chained_witness :
  exists L1 W1 La C Wa Lb C' Wb,
    cycle env textures transition_paths vertex_src header_src footer_src
          10 initial_locals initial_world = Ok L1 W1
    /\ cycle_prologue env textures transition_paths
                      vertex_src header_src footer_src
                      initial_locals initial_world = Ok (La, C) Wa
    /\ cycle_prologue env textures transition_paths
                      vertex_src header_src footer_src L1 W1
       = Ok (Lb, C') Wb
    /\ tex1 C' = tex2 C.
Proof.
  do 8 eexists.
  split; [vm_compute; reflexivity |].
  split; [vm_compute; reflexivity |].
  split; [vm_compute; reflexivity |].
  refine (proj1 (PlayerLast.cycles_are_chained
                   env textures transition_paths
                   vertex_src header_src footer_src 10
                   initial_locals initial_world _ _ _ _ _ _ _ _ _ _ _)).
  - vm_compute. reflexivity.
  - vm_compute. reflexivity.
  - vm_compute. reflexivity.
Defined.

Lemma show_repeats_witness :
  exists L W L' W',
    after_cycles steady_env textures transition_paths
                 vertex_src header_src footer_src 1 10
                 initial_locals initial_world = Some (L, W)
    /\ after_cycles steady_env textures transition_paths
                    vertex_src header_src footer_src 7 10
                    initial_locals initial_world = Some (L', W')
    /\ image_index L' = image_index L /\ trans_index L' = trans_index L.
Proof.
  do 4 eexists.
  split; [vm_compute; reflexivity |].
  split; [vm_compute; reflexivity |].
  refine (PlayerLast.show_repeats
            steady_env textures transition_paths
            vertex_src header_src footer_src 1 10 10 initial_world
            _ _ _ _ _ _).
  - vm_compute. reflexivity.
  - vm_compute. reflexivity.
Defined.

End LastFacts.
